(** * ObjectTracker: the registry of live API objects of VC4CL

    Shallow embedding of [src/ObjectTracker.cpp].  The tracker owns every
    live [BaseObject] through a [std::set<std::unique_ptr<BaseObject>>]
    guarded by a [std::recursive_mutex]; erasing an entry deletes the object,
    whose destructor may call back into the tracker.  A pointer to a deleted
    object dangles: reading through it, or deleting it again, is undefined
    behaviour. *)

From stdpp Require Import base numbers option list sets sorting strings pretty.

(** ** Data model *)

(** Pointers ([BaseObject*], [void*]) are compared and ordered: an address
    is a natural number, the null pointer is address zero. *)
Definition ptr : Type := N.

Definition nullptr : ptr := 0%N.

(** Modelled from the spec: the class [BaseObject] is declared in a header
    that is missing ([Object.h]).  The spec's tracked object reports a type
    name, a reference count and a stable identity; the source reads
    [obj->typeName], [obj->referenceCount] (a [cl_uint]) and the virtual
    [obj->getBasePointer()], and compares the pointer [obj] itself, here
    [addr].  The other fields are what a read through the pointer gives
    while the object is alive; whether it is alive is a matter of the state
    ([freed] below), and every read through a pointer argument checks it. *)
Record BaseObject : Type := mkObject {
  addr : ptr;
  getBasePointer : ptr;
  typeName : string;
  referenceCount : N
}.

Global Instance BaseObject_eq_dec : EqDecision BaseObject.
Proof. solve_decision. Defined.

(** The static entry points of the tracker that a destructor can re-enter. *)
Inductive call : Type :=
| CallAdd (obj : BaseObject)
| CallRemove (obj : BaseObject).

Global Instance call_eq_dec : EqDecision call.
Proof. solve_decision. Defined.

(** Modelled from the spec: the class [ObjectTracker] is declared in a
    header that is missing ([ObjectTracker.h]); the spec has a collection of
    exclusively owning slots in which no identity appears twice, behind one
    re-entrant lock.  The source fixes the rest: the elements are
    [std::unique_ptr<BaseObject>] (line 61), kept sorted by address (comment
    at line 40), with [emplace], [erase] and [--end()]; the mutex is a
    [std::recursive_mutex] (line 47).
    - [liveObjects]: the set, as the list of its elements in iteration order
      (ascending address, the order of [std::less] on the owning pointers);
    - [trackerMutex]: how many times the running thread holds the recursive
      mutex;
    - [cout]: the texts streamed by the [LOG] statements and by the API-call
      tracing macro, oldest first;
    - [freed]: the addresses at which an object was deleted and at which the
      client has not allocated since (allocation is the client's business
      and no part of this file); a pointer to one of them dangles.
    Two ghost fields record the history and are read by no operation:
    - [touched]: for every statement that evaluates an expression on
      [liveObjects], the value of [trackerMutex] at that moment;
    - [calls]: every entry into [addObject] and [removeObject], top-level or
      re-entrant, in order. *)
Record world : Type := mkWorld {
  liveObjects : list BaseObject;
  trackerMutex : nat;
  cout : list string;
  touched : list nat;
  calls : list call;
  freed : list ptr
}.

(** [static ObjectTracker liveObjectsTracker;] before any call. *)
Definition liveObjectsTracker : world := mkWorld [] 0 [] [] [] [].

Definition set_liveObjects (l : list BaseObject) (w : world) : world :=
  mkWorld l (trackerMutex w) (cout w) (touched w) (calls w) (freed w).

(** [std::lock_guard<std::recursive_mutex> guard(trackerMutex)]: the
    constructor; the owning thread never blocks on a recursive mutex. *)
Definition lock (w : world) : world :=
  mkWorld (liveObjects w) (S (trackerMutex w)) (cout w) (touched w) (calls w)
          (freed w).

(** The guard's destructor at the end of the scope. *)
Definition unlock (w : world) : world :=
  mkWorld (liveObjects w) (pred (trackerMutex w)) (cout w) (touched w) (calls w)
          (freed w).

(** Modelled from the spec: [LOG] is a macro of a header that is missing;
    the spec has a diagnostic trace delivered to a sink, so
    [LOG(std::cout << text)] appends the text to the output. *)
Definition LOG (msg : string) (w : world) : world :=
  mkWorld (liveObjects w) (trackerMutex w) (cout w ++ [msg]) (touched w) (calls w)
          (freed w).

(** Ghost: a statement evaluates an expression on [liveObjects]. *)
Definition touch (w : world) : world :=
  mkWorld (liveObjects w) (trackerMutex w) (cout w)
          (touched w ++ [trackerMutex w]) (calls w) (freed w).

(** Ghost: entry into [addObject] or [removeObject]. *)
Definition enter (c : call) (w : world) : world :=
  mkWorld (liveObjects w) (trackerMutex w) (cout w) (touched w) (calls w ++ [c])
          (freed w).

(** The storage at [a] is given back: from now on pointers to it dangle. *)
Definition mark_freed (a : ptr) (w : world) : world :=
  mkWorld (liveObjects w) (trackerMutex w) (cout w) (touched w) (calls w)
          (a :: freed w).

(** ** Outcomes *)

(** Where the source has undefined behaviour. *)
Inductive fault : Type :=
| NullDereference
| UseAfterFree (a : ptr)
| DoubleDelete (a : ptr).

(** What running a piece of the source gives: it returns, or it reaches
    undefined behaviour (what a real run does from there on is not
    modelled), or the bound on the nesting of calls was reached. *)
Inductive outcome (A : Type) : Type :=
| Returns (a : A)
| Undefined (f : fault)
| OutOfFuel.

Arguments Returns {A} a.
Arguments Undefined {A} f.
Arguments OutOfFuel {A}.

Global Instance outcome_bind : MBind outcome :=
  λ A B f m,
    match m with
    | Returns a => f a
    | Undefined u => Undefined u
    | OutOfFuel => OutOfFuel
    end.

(** [obj->...]: a read through the pointer [obj]. *)
Definition deref (obj : BaseObject) (w : world) : outcome BaseObject :=
  if decide (addr obj = nullptr) then Undefined NullDereference
  else if decide (addr obj ∈ freed w) then Undefined (UseAfterFree (addr obj))
  else Returns obj.

(** [std::endl] and ["\n"]. *)
Definition endl : string := String (Ascii.ascii_of_nat 10) EmptyString.

(** The texts of the four [LOG] statements that name an object. *)
Definition tracking_message (obj : BaseObject) : string :=
  "Tracking live-time of object: " +:+ typeName obj +:+ endl.

Definition releasing_message (obj : BaseObject) : string :=
  "Releasing live-time of object: " +:+ typeName obj +:+ endl.

Definition not_tracked_message (obj : BaseObject) : string :=
  "Removing object not previously tracked: " +:+ typeName obj +:+ endl.

Definition leak_message (obj : BaseObject) : string :=
  "[VC4CL] Leaked object with " +:+ pretty (referenceCount obj)
    +:+ " references: " +:+ typeName obj +:+ endl.

(** ** The container *)

(** [std::set::emplace]: the key is placed by [operator<] on the pointers;
    an element that is neither smaller nor greater is equivalent and the new
    key is rejected.  The boolean is the [second] of the returned pair. *)
Fixpoint emplace (obj : BaseObject) (l : list BaseObject) : list BaseObject * bool :=
  match l with
  | [] => ([obj], true)
  | x :: r =>
      if (addr obj <? addr x)%N then (obj :: l, true)
      else if (addr x <? addr obj)%N then
        let '(r', b) := emplace obj r in (x :: r', b)
      else (l, false)
  end.

(** [std::find_if(begin, end, [obj](ptr) { return ptr.get() == obj; })]:
    position and element of the first match, [None] for [end()]. *)
Definition find_if (obj : BaseObject) (l : list BaseObject) : option (nat * BaseObject) :=
  list_find (λ p, addr p = addr obj) l.

(** A sequence of tracker calls, each run by [step]; it stops at the first
    one that does not return. *)
Fixpoint run_calls (step : call → world → outcome world)
    (cs : list call) (w : world) : outcome world :=
  match cs with
  | [] => Returns w
  | c :: cs' => w' ← step c w; run_calls step cs' w'
  end.

Section Tracker.

Local Open Scope string_scope.
Local Open Scope list_scope.

(** The build flag [DEBUG_MODE] and the run-time switch
    [isDebugLogEnabled()]. *)
Variable DEBUG_MODE : bool.
Variable isDebugLogEnabled : bool.

(** The destructors of the concrete object classes are outside this file;
    for the tracker a destructor is the sequence of tracker calls it makes
    (releasing a child ends in [removeObject] of the child). *)
Variable dtor : BaseObject → list call.

(** [VC4CL_PRINT_API_CALL(ret, name, type1, arg1, ...)], a macro of a header
    that is missing: the lines it writes for the given call.  An argument
    without a value in the model is [None]. *)
Variable VC4CL_PRINT_API_CALL : string → string → list (string * option ptr) → list string.

(** ** Deleting an object *)

(** Dropping an owning [std::unique_ptr]: nothing for the null pointer,
    otherwise [delete p].  Deleting a deleted object is undefined; else the
    destructor runs, its tracker calls made by [run], and the storage is
    given back, unless a nested delete of the same object has given it back
    in the meantime. *)
Definition delete_with (run : list call → world → outcome world)
    (o : BaseObject) (w : world) : outcome world :=
  if decide (addr o = nullptr) then Returns w
  else if decide (addr o ∈ freed w) then Undefined (DoubleDelete (addr o))
  else
    w ← run (dtor o) w;
    if decide (addr o ∈ freed w) then Undefined (DoubleDelete (addr o))
    else Returns (mark_freed (addr o) w).

(** [LOG(std::cout << "..." << obj->typeName << std::endl)]. *)
Definition log_object (message : BaseObject → string) (obj : BaseObject)
    (w : world) : outcome world :=
  o ← deref obj w; Returns (LOG (message o) w).

(** ** addObject and removeObject *)

(** The two bodies, with [delete_ obj] standing for the drop of an owning
    pointer to [obj]. *)
Section Bodies.
Variable delete_ : BaseObject → world → outcome world.

(** [emplace(obj)] first builds the owning pointer; when the set rejects the
    key this temporary owner is dropped, which deletes [obj] (line 48).  The
    trace of the debug build reads [obj->typeName] after that (line 50). *)
Definition addObject_body (obj : BaseObject) (w : world) : outcome world :=
  let w := lock (enter (CallAdd obj) w) in
  let '(l, inserted) := emplace obj (liveObjects w) in
  let w := set_liveObjects l (touch w) in
  w ← (if inserted then Returns w else delete_ obj w);
  w ← (if DEBUG_MODE then log_object tracking_message obj w else Returns w);
  Returns (unlock w).

(** The trace of the debug build reads [obj->typeName] first (line 58);
    [find_if] compares pointers only; [erase(it)] unlinks the node and then
    destroys its value; the trace of the not-found branch reads
    [obj->typeName] (line 65). *)
Definition removeObject_body (obj : BaseObject) (w : world) : outcome world :=
  let w := lock (enter (CallRemove obj) w) in
  w ← (if DEBUG_MODE then log_object releasing_message obj w else Returns w);
  let w := touch w in
  match find_if obj (liveObjects w) with
  | Some (it, p) =>
      let w := touch w in
      let w := set_liveObjects (delete it (liveObjects w)) (touch w) in
      w ← delete_ p w;
      Returns (unlock w)
  | None =>
      let w := touch w in
      w ← (if isDebugLogEnabled
           then log_object not_tracked_message obj w
           else Returns w);
      Returns (unlock w)
  end.

End Bodies.

(** The states in between, for the statements: after [emplace] in
    [addObject]; after [find_if] in [removeObject]; after the node at [it]
    was unlinked in [removeObject]. *)
Definition after_emplace (obj : BaseObject) (w : world) : world :=
  set_liveObjects (emplace obj (liveObjects w)).1
                  (touch (lock (enter (CallAdd obj) w))).

Definition after_find_if (obj : BaseObject) (w : world) : world :=
  touch (if DEBUG_MODE
         then LOG (releasing_message obj) (lock (enter (CallRemove obj) w))
         else lock (enter (CallRemove obj) w)).

Definition after_unlink (obj : BaseObject) (it : nat) (w : world) : world :=
  set_liveObjects (delete it (liveObjects w))
                  (touch (touch (after_find_if obj w))).

(** One tracker call.  [fuel] bounds the nesting of destructors inside
    destructors. *)
Fixpoint exec (fuel : nat) (c : call) (w : world) : outcome world :=
  match fuel with
  | O => OutOfFuel
  | S f =>
      let delete_ := delete_with (run_calls (exec f)) in
      match c with
      | CallAdd obj => addObject_body delete_ obj w
      | CallRemove obj => removeObject_body delete_ obj w
      end
  end.

Definition delete_object (fuel : nat) : BaseObject → world → outcome world :=
  delete_with (run_calls (exec fuel)).

Definition addObject (fuel : nat) (obj : BaseObject) : world → outcome world :=
  exec fuel (CallAdd obj).

Definition removeObject (fuel : nat) (obj : BaseObject) : world → outcome world :=
  exec fuel (CallRemove obj).

(** ** The destructor of the tracker *)

(** Lines 24 to 32: [&&] evaluates [liveObjects.empty()] only when the debug
    log is enabled. *)
Definition report_leaks (w : world) : world :=
  if isDebugLogEnabled then
    let w := touch w in
    match liveObjects w with
    | [] => w
    | _ :: _ =>
        let w := touch w in
        let w := foldl (λ w obj, LOG (leak_message obj) w) w (liveObjects w) in
        LOG endl w
    end
  else w.

(** What [report_leaks] writes and touches, in closed form. *)
Definition leak_lines (l : list BaseObject) : list string :=
  if isDebugLogEnabled then
    match l with [] => [] | _ :: _ => (leak_message <$> l) ++ [endl] end
  else [].

Definition leak_touches (m : nat) (l : list BaseObject) : list nat :=
  if isDebugLogEnabled then
    match l with [] => [m] | _ :: _ => [m; m] end
  else [].

(** Lines 37 to 42: [while(!liveObjects.empty())
    liveObjects.erase(--liveObjects.end());].  One unit of [fuel] per
    iteration; the destructor run by an iteration nests within the rest. *)
Fixpoint sweep (fuel : nat) (w : world) : outcome world :=
  match fuel with
  | O => OutOfFuel
  | S f =>
      let w := touch w in
      match last (liveObjects w) with
      | None => Returns w
      | Some o =>
          let w := set_liveObjects (removelast (liveObjects w)) (touch w) in
          w ← delete_object f o w;
          sweep f w
      end
  end.

(** [ObjectTracker::~ObjectTracker()]. *)
Definition ObjectTracker_destructor (fuel : nat) (w : world) : outcome world :=
  sweep fuel (report_leaks w).

(** ** iterateObjects and findTrackedObject *)

(** Both functions, like the leak report above, read the objects through
    the owning pointers of the set, not through a pointer argument.  They
    are modelled for entries that own their object: an entry is left with a
    deleted object only by an [addObject] of an identity that was tracked
    already (line 48, see [addObject_body]). *)

(** [ReportFunction]: the callback receives [userData], the object pointer,
    the type name and the reference count; it returns nothing and acts on a
    state [V] of its own. *)
Definition ReportFunction (V : Type) : Type := ptr → ptr → string → N → V → V.

Definition iterateObjects {V : Type} (func : ReportFunction V) (userData : ptr)
    (w : world) (v : V) : world * V :=
  let w := lock w in
  let w := touch w in
  let v :=
    foldl (λ v obj,
             func userData (getBasePointer obj) (typeName obj) (referenceCount obj) v)
          v (liveObjects w) in
  (unlock w, v).

(** The range-for of [findTrackedObject] with its early [return]. *)
Fixpoint scan (predicate : BaseObject → bool) (l : list BaseObject) : option BaseObject :=
  match l with
  | [] => None
  | obj :: r => if predicate obj then Some obj else scan predicate r
  end.

(** The result is the borrowed pointer, [None] for [nullptr]. *)
Definition findTrackedObject (predicate : BaseObject → bool) (w : world)
    : world * option BaseObject :=
  let w := lock w in
  let w := touch w in
  (unlock w, scan predicate (liveObjects w)).

(** ** The extension entry points *)

Definition api_trace (lines : list string) (w : world) : world :=
  mkWorld (liveObjects w) (trackerMutex w) (cout w ++ lines) (touched w) (calls w)
          (freed w).

Definition clTrackLiveObjectsAltera (platform : ptr) (w : world) : world :=
  api_trace
    (VC4CL_PRINT_API_CALL "void" "clTrackLiveObjectsAltera"
       [("cl_platform_id", Some platform)]) w.

Definition clReportLiveObjectsAltera {V : Type} (platform : ptr)
    (report_fn : ReportFunction V) (user_data : ptr) (w : world) (v : V) : world * V :=
  let w :=
    api_trace
      (VC4CL_PRINT_API_CALL "void" "clReportLiveObjectsAltera"
         [("cl_platform_id", Some platform);
          ("void(CL_CALLBACK*" +:+ ")(void*, void*, const char*, cl_uint)", None);
          ("void*", Some user_data)]) w in
  iterateObjects report_fn user_data w v.

End Tracker.

Arguments iterateObjects {V} func userData w v.
Arguments clReportLiveObjectsAltera _ {V} platform report_fn user_data w v.

(** ** Objects and destructors for the concrete runs *)

Module Scenario.

Definition A : BaseObject := mkObject 100%N 108%N "cl_context"%string 1%N.
Definition B : BaseObject := mkObject 200%N 208%N "cl_command_queue"%string 2%N.
Definition C : BaseObject := mkObject 300%N 308%N "cl_mem"%string 1%N.

(** No destructor calls back into the tracker. *)
Definition plain : BaseObject → list call := λ _, [].

(** Destroying [A] releases [B]. *)
Definition A_releases_B : BaseObject → list call :=
  λ o, if decide (addr o = addr A) then [CallRemove B] else [].

Definition no_trace : string → string → list (string * option ptr) → list string :=
  λ _ _ _, [].

Definition with_objects (l : list BaseObject) : world := mkWorld l 0 [] [] [] [].

(** Every destructor registers its object again. *)
Definition resurrect : BaseObject → list call := λ o, [CallAdd o].

End Scenario.

(** ** Notions used by the statements *)

(** The order of the set: strictly ascending addresses. *)
Definition before (x y : BaseObject) : Prop := (addr x < addr y)%N.

Definition set_wf (l : list BaseObject) : Prop := StronglySorted before l.

(** The identities held by the set. *)
Definition identities (l : list BaseObject) : list ptr := addr <$> l.

Definition tracked (obj : BaseObject) (l : list BaseObject) : Prop :=
  addr obj ∈ identities l.

Global Instance tracked_dec (obj : BaseObject) (l : list BaseObject) :
  Decision (tracked obj l).
Proof. unfold tracked. apply _. Defined.

(** A pointer to a live object, and one to a deleted object. *)
Definition live (w : world) (obj : BaseObject) : Prop :=
  addr obj ≠ nullptr ∧ addr obj ∉ freed w.

Definition dangling (w : world) (obj : BaseObject) : Prop :=
  addr obj ≠ nullptr ∧ addr obj ∈ freed w.

(** Every entry of the set owns a live object. *)
Definition entries_live (w : world) : Prop :=
  ∀ o, o ∈ liveObjects w → live w o.

(** [sound w]: the set is well formed and owns live objects only. *)
Definition sound (w : world) : Prop :=
  set_wf (liveObjects w) ∧ entries_live w.

(** [shrinks w w']: from [w] to [w'] entries only left the set, and what
    was deleted on the way had an entry in [w]. *)
Definition shrinks (w w' : world) : Prop :=
  liveObjects w' `sublist_of` liveObjects w ∧
  ∀ a, a ∈ freed w' → a ∈ freed w ∨ a ∈ identities (liveObjects w).

(** Destructors that only release: every call they make is a
    [removeObject]. *)
Definition is_remove (c : call) : Prop :=
  match c with CallRemove _ => True | CallAdd _ => False end.

Definition only_removes (dtor : BaseObject → list call) : Prop :=
  ∀ o, Forall is_remove (dtor o).

(** Reading the history of calls. *)
Definition removes (a : ptr) (c : call) : Prop :=
  match c with CallRemove o => addr o = a | CallAdd _ => False end.

Fixpoint added (cs : list call) : list ptr :=
  match cs with
  | [] => []
  | CallAdd o :: r => addr o :: added r
  | CallRemove _ :: r => added r
  end.

(** [o] was passed to [addObject] and no later [removeObject] named its
    identity. *)
Definition added_not_removed (cs : list call) (o : BaseObject) : Prop :=
  ∃ l1 l2, cs = l1 ++ CallAdd o :: l2 ∧ Forall (λ c, ¬ removes (addr o) c) l2.

(** [consistent w]: the set is well formed and, as long as no identity was
    passed to [addObject] twice, it holds exactly the objects that were
    added and not removed since. *)
Definition consistent (w : world) : Prop :=
  set_wf (liveObjects w) ∧
  (NoDup (added (calls w)) →
   ∀ o, o ∈ liveObjects w ↔ added_not_removed (calls w) o).

(** The predicate a caller of [findTrackedObject] uses to look an object up
    by its pointer. *)
Definition has_identity (a : ptr) (o : BaseObject) : bool :=
  bool_decide (addr o = a).

(** What a visitor is handed for an entry, and a visitor that keeps it. *)
Definition report : Type := ptr * string * N.

Definition report_of (obj : BaseObject) : report :=
  (getBasePointer obj, typeName obj, referenceCount obj).

Definition record_report : ReportFunction (list report) :=
  λ _ objPtr name refCount seen, seen ++ [(objPtr, name, refCount)].

(** [span n w w']: from [w] to [w'] the histories only grew, and every
    statement that touched the set did so with the mutex held more than [n]
    times. *)
Definition span (n : nat) (w w' : world) : Prop :=
  (∃ t, touched w' = touched w ++ t ∧ Forall (λ h, n < h) t) ∧
  (∃ out, cout w' = cout w ++ out) ∧
  (∃ cs, calls w' = calls w ++ cs).

(** [framed w w']: what ran from [w] to [w'] gave the lock back and touched
    the set only while holding it. *)
Definition framed (w w' : world) : Prop :=
  trackerMutex w' = trackerMutex w ∧ span (trackerMutex w) w w'.

(** [guarded w w']: moreover it did touch the set. *)
Definition guarded (w w' : world) : Prop :=
  framed w w' ∧ length (touched w) < length (touched w').

(** ** Properties of the container *)

Lemma set_wf_nil : set_wf [].
Proof. constructor. Qed.

Lemma set_wf_sublist (k l : list BaseObject) :
  k `sublist_of` l → set_wf l → set_wf k.
Proof.
  induction 1 as [|x k l Hkl IH|x k l Hkl IH]; intros Hl.
  - constructor.
  - apply StronglySorted_inv in Hl as [Hl Hx].
    constructor; [by apply IH|].
    rewrite Forall_forall in Hx |- *. intros y Hy.
    apply Hx. by eapply elem_of_sublist.
  - apply StronglySorted_inv in Hl as [Hl _]. by apply IH.
Qed.

Lemma set_wf_NoDup (l : list BaseObject) : set_wf l → NoDup (identities l).
Proof.
  induction 1 as [|x l Hl IH Hx]; simpl; constructor; [|done].
  intros (y & Hxy & Hy)%list_elem_of_fmap.
  rewrite Forall_forall in Hx. specialize (Hx y Hy).
  unfold before in Hx. lia.
Qed.

(** A key with a new address always goes in, between the elements that
    were there. *)
Lemma emplace_fresh (obj : BaseObject) (l : list BaseObject) :
  ¬ tracked obj l →
  ∃ l1 l2, l = l1 ++ l2 ∧ emplace obj l = (l1 ++ obj :: l2, true).
Proof.
  unfold tracked, identities.
  induction l as [|x r IH]; simpl; intros Hn.
  - by exists [], [].
  - apply not_elem_of_cons in Hn as [Hne Hn].
    destruct (addr obj <? addr x)%N eqn:E1.
    { by exists [], (x :: r). }
    destruct (addr x <? addr obj)%N eqn:E2.
    + destruct (IH Hn) as (l1 & l2 & -> & ->).
      by exists (x :: l1), l2.
    + apply N.ltb_ge in E1, E2. exfalso. apply Hne. lia.
Qed.

(** In a well-formed set a key whose address is present is rejected. *)
Lemma emplace_tracked (obj : BaseObject) (l : list BaseObject) :
  set_wf l → tracked obj l → emplace obj l = (l, false).
Proof.
  unfold tracked, identities.
  induction 1 as [|x r Hr IH Hx]; simpl; intros Hin.
  - by apply elem_of_nil in Hin.
  - apply elem_of_cons in Hin as [Heq|Hin].
    + rewrite Heq. by rewrite !N.ltb_irrefl.
    + apply list_elem_of_fmap in Hin as (y & Hy & Hyr).
      rewrite Forall_forall in Hx. specialize (Hx y Hyr). unfold before in Hx.
      assert ((addr obj <? addr x)%N = false) as -> by (apply N.ltb_ge; lia).
      assert ((addr x <? addr obj)%N = true) as -> by (apply N.ltb_lt; lia).
      rewrite IH; [done|]. rewrite Hy. by apply list_elem_of_fmap_2.
Qed.

Lemma emplace_wf (obj : BaseObject) (l : list BaseObject) :
  set_wf l → set_wf (emplace obj l).1.
Proof.
  intros Hl. destruct (decide (tracked obj l)) as [Ht|Hn].
  { by rewrite emplace_tracked. }
  revert Hn. unfold tracked, identities.
  induction Hl as [|x r Hr IH Hx]; simpl; intros Hn.
  - repeat constructor.
  - apply not_elem_of_cons in Hn as [Hne Hn].
    destruct (addr obj <? addr x)%N eqn:E1.
    + apply N.ltb_lt in E1. constructor; [by constructor|].
      constructor; [done|].
      eapply Forall_impl; [exact Hx|]. unfold before. intros; simpl in *; lia.
    + destruct (addr x <? addr obj)%N eqn:E2.
      * apply N.ltb_lt in E2.
        destruct (emplace_fresh obj r Hn) as (l1 & l2 & Hr12 & Hem).
        rewrite Hem in IH |- *. simpl in *.
        constructor; [by apply IH|].
        subst r. apply Forall_app in Hx as [H1 H2].
        apply Forall_app; split; [done|]. by constructor.
      * by constructor.
Qed.

Lemma emplace_elem_of (obj x : BaseObject) (l : list BaseObject) :
  ¬ tracked obj l → x ∈ (emplace obj l).1 ↔ x = obj ∨ x ∈ l.
Proof.
  intros (l1 & l2 & -> & ->)%emplace_fresh. simpl.
  rewrite !elem_of_app, elem_of_cons. tauto.
Qed.

Lemma find_if_None (obj : BaseObject) (l : list BaseObject) :
  find_if obj l = None ↔ ¬ tracked obj l.
Proof.
  unfold find_if, tracked, identities. rewrite list_find_None, Forall_forall.
  split.
  - intros H (y & Hy & Hin)%list_elem_of_fmap. by apply (H y).
  - intros H y Hin Hy. apply H. rewrite <- Hy. by apply list_elem_of_fmap_2.
Qed.

Lemma find_if_Some (obj p : BaseObject) (it : nat) (l : list BaseObject) :
  find_if obj l = Some (it, p) →
  l !! it = Some p ∧ addr p = addr obj ∧ p ∈ l.
Proof.
  unfold find_if. intros (Hl & Hp & _)%list_find_Some.
  split_and!; [done..|]. by eapply list_elem_of_lookup_2.
Qed.

(** The key just placed is the one [find_if] meets first. *)
Lemma find_if_emplaced (obj : BaseObject) (l1 l2 : list BaseObject) :
  ¬ tracked obj (l1 ++ l2) →
  find_if obj (l1 ++ obj :: l2) = Some (length l1, obj).
Proof.
  unfold tracked, identities, find_if. intros Hn.
  apply list_find_Some. split_and!.
  - by rewrite list_lookup_middle.
  - done.
  - intros j y Hj Hlt Hy. apply Hn. rewrite <- Hy.
    apply list_elem_of_fmap_2. rewrite lookup_app_l in Hj by done.
    apply elem_of_app. left. by eapply list_elem_of_lookup_2.
Qed.

Lemma delete_middle {A} (l1 l2 : list A) (x : A) :
  delete (length l1) (l1 ++ x :: l2) = l1 ++ l2.
Proof. induction l1 as [|y l1 IH]; simpl; [done|]. by rewrite IH. Qed.

(** In a well-formed set erasing the match removes the identity and nothing
    else. *)
Lemma erase_elem_of (obj p x : BaseObject) (it : nat) (l : list BaseObject) :
  set_wf l → find_if obj l = Some (it, p) →
  x ∈ delete it l ↔ x ∈ l ∧ addr x ≠ addr obj.
Proof.
  intros Hwf (Hit & Hp & _)%find_if_Some.
  apply list_elem_of_split_length in Hit as (l1 & l2 & -> & ->).
  rewrite delete_middle.
  apply set_wf_NoDup in Hwf. unfold identities in Hwf.
  rewrite fmap_app, fmap_cons in Hwf.
  apply NoDup_app in Hwf as (_ & H12 & H2).
  apply NoDup_cons in H2 as [Hp2 _].
  rewrite !elem_of_app, elem_of_cons. split.
  - intros [H1|H2].
    + split; [by left|]. intros Hx. apply (H12 (addr x)).
      * by apply list_elem_of_fmap_2.
      * rewrite Hx, <- Hp. by left.
    + split; [by right; right|]. intros Hx. apply Hp2.
      rewrite Hp, <- Hx. by apply list_elem_of_fmap_2.
  - intros [[H1|[->|H2]] Hne]; [by left|done|by right].
Qed.

(** ** Further properties of the container *)

Lemma NoDup_fmap_same {A B} (f : A → B) (l : list A) (x y : A) :
  NoDup (f <$> l) → x ∈ l → y ∈ l → f x = f y → x = y.
Proof.
  induction l as [|z l IH]; simpl; intros Hnd Hx Hy Hxy.
  - by apply elem_of_nil in Hx.
  - apply NoDup_cons in Hnd as [Hz Hnd].
    apply elem_of_cons in Hx as [->|Hx]; apply elem_of_cons in Hy as [->|Hy].
    + done.
    + exfalso. apply Hz. rewrite Hxy. by apply list_elem_of_fmap_2.
    + exfalso. apply Hz. rewrite <- Hxy. by apply list_elem_of_fmap_2.
    + by apply IH.
Qed.

Lemma before_antisymm : AntiSymm (=) before.
Proof. intros x y Hxy Hyx. unfold before in *. lia. Qed.

(** A well-formed set is determined by its members. *)
Lemma set_wf_ext (l1 l2 : list BaseObject) :
  set_wf l1 → set_wf l2 → (∀ o, o ∈ l1 ↔ o ∈ l2) → l1 = l2.
Proof.
  intros H1 H2 Hmem.
  apply (@StronglySorted_unique _ before before_antisymm); [done..|].
  apply NoDup_Permutation; [| |done].
  - eapply NoDup_fmap_1, set_wf_NoDup, H1.
  - eapply NoDup_fmap_1, set_wf_NoDup, H2.
Qed.

Lemma emplace_rejected (obj : BaseObject) (l : list BaseObject) :
  (emplace obj l).2 = false → (emplace obj l).1 = l.
Proof.
  induction l as [|x r IH]; simpl; [done|].
  destruct (addr obj <? addr x)%N; [done|].
  destruct (addr x <? addr obj)%N; [|done].
  destruct (emplace obj r) as [r' b]; simpl in *.
  intros ->. by rewrite IH.
Qed.

Lemma emplace_length (obj : BaseObject) (l : list BaseObject) :
  length (emplace obj l).1 = if (emplace obj l).2 then S (length l) else length l.
Proof.
  induction l as [|x r IH]; simpl; [done|].
  destruct (addr obj <? addr x)%N; [done|].
  destruct (addr x <? addr obj)%N; [|done].
  destruct (emplace obj r) as [r' b]; simpl in *.
  rewrite IH. by destruct b.
Qed.

Lemma emplace_not_empty (obj : BaseObject) (l : list BaseObject) :
  (emplace obj l).1 ≠ [].
Proof.
  destruct l as [|x r]; simpl; [done|].
  destruct (addr obj <? addr x)%N; [done|].
  destruct (addr x <? addr obj)%N; [|done].
  by destruct (emplace obj r).
Qed.

Lemma set_wf_last (l : list BaseObject) (o x : BaseObject) :
  set_wf (l ++ [o]) → x ∈ l → (addr x < addr o)%N.
Proof.
  intros Hwf Hx.
  apply (StronglySorted_app_1_elem_of before l [o] x o Hwf Hx). by left.
Qed.

Lemma scan_Some (predicate : BaseObject → bool) (l : list BaseObject) (o : BaseObject) :
  scan predicate l = Some o → o ∈ l ∧ predicate o = true.
Proof.
  induction l as [|x l IH]; simpl; [done|].
  destruct (predicate x) eqn:Hx.
  - intros [= ->]. split; [by left|done].
  - intros [Ho ?]%IH. split; [by right|done].
Qed.

Lemma scan_None (predicate : BaseObject → bool) (l : list BaseObject) :
  scan predicate l = None ↔ ∀ x, x ∈ l → predicate x = false.
Proof.
  induction l as [|x l IH]; simpl.
  - split; [|done]. by intros _ x ?%elem_of_nil.
  - destruct (predicate x) eqn:Hx.
    + split; [done|]. intros H. specialize (H x (list_elem_of_here _ _)). congruence.
    + rewrite IH. split.
      * intros H y [->|Hy]%elem_of_cons; auto.
      * intros H y Hy. apply H. by right.
Qed.

(** In a well-formed set the entry with a given identity is the one the
    scan meets. *)
Lemma scan_has_identity (l : list BaseObject) (o : BaseObject) :
  set_wf l → o ∈ l → scan (has_identity (addr o)) l = Some o.
Proof.
  intros Hwf Ho.
  destruct (scan (has_identity (addr o)) l) as [o'|] eqn:Hscan.
  - apply scan_Some in Hscan as [Ho' Heq].
    apply bool_decide_eq_true_1 in Heq. f_equal.
    eapply (NoDup_fmap_same addr); eauto. by apply set_wf_NoDup.
  - rewrite scan_None in Hscan. specialize (Hscan o Ho).
    unfold has_identity in Hscan. by apply bool_decide_eq_false_1 in Hscan.
Qed.


Lemma emplace_greatest (obj : BaseObject) (l : list BaseObject) :
  (∀ x, x ∈ l → (addr x < addr obj)%N) → emplace obj l = (l ++ [obj], true).
Proof.
  induction l as [|x l IH]; simpl; intros Hlt; [done|].
  assert (addr x < addr obj)%N as Hx by (apply Hlt; by left).
  rewrite (proj2 (N.ltb_ge _ _)) by lia.
  rewrite (proj2 (N.ltb_lt _ _)) by done.
  rewrite IH; [done|]. intros y Hy. apply Hlt. by right.
Qed.

Lemma set_wf_snoc_untracked (l : list BaseObject) (o : BaseObject) :
  set_wf (l ++ [o]) → ¬ tracked o l.
Proof.
  intros Hwf (x & Heq & Hx)%list_elem_of_fmap.
  pose proof (set_wf_last l o x Hwf Hx). lia.
Qed.

Lemma set_wf_snoc_init (l : list BaseObject) (o : BaseObject) :
  set_wf (l ++ [o]) → set_wf l.
Proof.
  intros Hwf. eapply set_wf_sublist; [|done]. by apply sublist_inserts_r.
Qed.
(** ** Histories and the lock *)

Local Ltac span_same :=
  split_and!; simpl; exists []; rewrite ?app_nil_r; auto.

Lemma span_refl (n : nat) (w : world) : span n w w.
Proof. span_same. Qed.

Lemma span_trans (n : nat) (w1 w2 w3 : world) :
  span n w1 w2 → span n w2 w3 → span n w1 w3.
Proof.
  intros ((t1 & Ht1 & Hf1) & (o1 & Ho1) & (c1 & Hc1))
         ((t2 & Ht2 & Hf2) & (o2 & Ho2) & (c2 & Hc2)).
  split_and!.
  - exists (t1 ++ t2). rewrite Ht2, Ht1, <- app_assoc.
    split; [done|]. by apply Forall_app.
  - exists (o1 ++ o2). by rewrite Ho2, Ho1, <- app_assoc.
  - exists (c1 ++ c2). by rewrite Hc2, Hc1, <- app_assoc.
Qed.

Lemma span_weaken (n m : nat) (w w' : world) :
  m ≤ n → span n w w' → span m w w'.
Proof.
  intros Hmn ((t & Ht & Hf) & Ho & Hc). split_and!; [|done..].
  exists t. split; [done|]. eapply Forall_impl; [exact Hf|]. simpl. lia.
Qed.

Lemma span_touch (n : nat) (w : world) : n < trackerMutex w → span n w (touch w).
Proof.
  intros Hn. split_and!; simpl.
  - exists [trackerMutex w]. split; [done|]. by repeat constructor.
  - exists []. by rewrite app_nil_r.
  - exists []. by rewrite app_nil_r.
Qed.

Lemma span_LOG (n : nat) (msg : string) (w : world) : span n w (LOG msg w).
Proof.
  split_and!; simpl; [exists []|by exists [msg]|exists []];
    rewrite ?app_nil_r; auto.
Qed.

Lemma span_enter (n : nat) (c : call) (w : world) : span n w (enter c w).
Proof.
  split_and!; simpl; [exists []|exists []|by exists [c]];
    rewrite ?app_nil_r; auto.
Qed.

Lemma span_lock (n : nat) (w : world) : span n w (lock w).
Proof. span_same. Qed.

Lemma span_unlock (n : nat) (w : world) : span n w (unlock w).
Proof. span_same. Qed.

Lemma span_set_liveObjects (n : nat) (l : list BaseObject) (w : world) :
  span n w (set_liveObjects l w).
Proof. span_same. Qed.

Lemma span_if_LOG (n : nat) (b : bool) (msg : string) (w : world) :
  span n w (if b then LOG msg w else w).
Proof. destruct b; [apply span_LOG|apply span_refl]. Qed.

Lemma span_length (n : nat) (w w' : world) :
  span n w w' → length (touched w) ≤ length (touched w').
Proof. intros ((t & -> & _) & _). rewrite length_app. lia. Qed.

Lemma framed_refl (w : world) : framed w w.
Proof. split; [done|apply span_refl]. Qed.

Lemma framed_trans (w1 w2 w3 : world) :
  framed w1 w2 → framed w2 w3 → framed w1 w3.
Proof.
  intros [Hm1 Hs1] [Hm2 Hs2]. split; [congruence|].
  eapply span_trans; [exact Hs1|]. by rewrite <- Hm1.
Qed.

Lemma span_mark_freed (n : nat) (a : ptr) (w : world) : span n w (mark_freed a w).
Proof. span_same. Qed.

(** ** Outcomes that return *)

Lemma bind_Returns {A B} (m : outcome A) (f : A → outcome B) (b : B) :
  m ≫= f = Returns b ↔ ∃ a, m = Returns a ∧ f a = Returns b.
Proof.
  split.
  - destruct m as [a| |]; simpl; [|done..]. eauto.
  - by intros (a & -> & ?).
Qed.

Lemma deref_Returns (obj o : BaseObject) (w : world) :
  deref obj w = Returns o ↔ o = obj ∧ live w obj.
Proof.
  unfold deref, live. repeat case_decide; split; try done.
  - by intros [_ []].
  - by intros [_ []].
  - intros [= ->]. done.
  - by intros [-> _].
Qed.

Lemma log_object_live (message : BaseObject → string) (obj : BaseObject) (w : world) :
  live w obj → log_object message obj w = Returns (LOG (message obj) w).
Proof.
  intros Hlive. unfold log_object.
  by rewrite (proj2 (deref_Returns obj obj w) (conj eq_refl Hlive)).
Qed.

Lemma log_object_dangling (message : BaseObject → string) (obj : BaseObject) (w : world) :
  dangling w obj → log_object message obj w = Undefined (UseAfterFree (addr obj)).
Proof.
  intros [Hnull Hfreed]. unfold log_object, deref. by repeat case_decide.
Qed.

Lemma log_object_null (message : BaseObject → string) (obj : BaseObject) (w : world) :
  addr obj = nullptr → log_object message obj w = Undefined NullDereference.
Proof. intros Hnull. unfold log_object, deref. by rewrite decide_True. Qed.

Lemma log_object_Returns (message : BaseObject → string) (obj : BaseObject)
    (w w' : world) :
  log_object message obj w = Returns w' ↔ live w obj ∧ w' = LOG (message obj) w.
Proof.
  unfold log_object. rewrite bind_Returns. split.
  - intros (o & [-> Hlive]%deref_Returns & [= <-]). done.
  - intros [Hlive ->]. exists obj. by rewrite deref_Returns.
Qed.

(** The optional trace of an object. *)
Lemma traced_Returns (b : bool) (message : BaseObject → string) (obj : BaseObject)
    (w w' : world) :
  (if b then log_object message obj w else Returns w) = Returns w' ↔
  (b = true → live w obj) ∧ w' = (if b then LOG (message obj) w else w).
Proof.
  destruct b.
  - rewrite log_object_Returns. split; [intros [? ->]; auto|intros [H ->]; auto].
  - split; [by intros [= ->]|by intros [_ ->]].
Qed.

Lemma delete_with_Returns (dtor : BaseObject → list call)
    (run : list call → world → outcome world) (o : BaseObject) (w w' : world) :
  delete_with dtor run o w = Returns w' ↔
  (addr o = nullptr ∧ w' = w) ∨
  (addr o ≠ nullptr ∧ (addr o ∉ freed w) ∧
   ∃ w1, run (dtor o) w = Returns w1 ∧ (addr o ∉ freed w1) ∧
         w' = mark_freed (addr o) w1).
Proof.
  unfold delete_with. case_decide as Hnull.
  { split; [intros [= <-]; by left|]. by intros [[_ ->]|[? _]]. }
  case_decide as Hfreed.
  { split; [done|]. by intros [[? _]|(_ & ? & _)]. }
  rewrite bind_Returns. split.
  - intros (w1 & Hrun & Hend). case_decide; [done|]. injection Hend as <-.
    right. eauto 10.
  - intros [[? _]|(_ & _ & w1 & Hrun & Hn & ->)]; [done|].
    exists w1. split; [done|]. by case_decide.
Qed.

Lemma run_calls_framed (step : call → world → outcome world) :
  (∀ c w w', step c w = Returns w' → framed w w') →
  ∀ cs w w', run_calls step cs w = Returns w' → framed w w'.
Proof.
  intros Hstep cs. induction cs as [|c cs IH]; simpl; intros w w' Hrun.
  - injection Hrun as <-. apply framed_refl.
  - apply bind_Returns in Hrun as (w1 & E & Hrun).
    eapply framed_trans; eauto.
Qed.

Lemma framed_mark_freed (a : ptr) (w : world) : framed w (mark_freed a w).
Proof. split; [done|apply span_mark_freed]. Qed.

Lemma delete_with_framed (dtor : BaseObject → list call)
    (run : list call → world → outcome world) :
  (∀ cs w w', run cs w = Returns w' → framed w w') →
  ∀ o w w', delete_with dtor run o w = Returns w' → framed w w'.
Proof.
  intros Hrun o w w' [[_ ->]|(_ & _ & w1 & H1 & _ & ->)]%delete_with_Returns.
  - apply framed_refl.
  - eapply framed_trans; [by eapply Hrun|apply framed_mark_freed].
Qed.

Section Frames.
Context (DEBUG_MODE isDebugLogEnabled : bool).
Context (delete_ : BaseObject → world → outcome world).
Hypothesis delete_framed : ∀ o w w', delete_ o w = Returns w' → framed w w'.

(** The part of a body that runs under the guard, from the state [w1]
    reached with the lock taken and one touch made to the state [w2] before
    the guard is dropped. *)
Lemma under_guard (w w1 w2 : world) :
  trackerMutex w1 = S (trackerMutex w) →
  span (trackerMutex w) w w1 →
  length (touched w) < length (touched w1) →
  trackerMutex w2 = trackerMutex w1 →
  span (trackerMutex w) w1 w2 →
  guarded w (unlock w2).
Proof.
  intros Hm1 Hs1 Hl1 Hm2 Hs2. split; [split|]; simpl.
  - by rewrite Hm2, Hm1.
  - eapply span_trans; [exact Hs1|].
    eapply span_trans; [exact Hs2|apply span_unlock].
  - apply span_length in Hs2. lia.
Qed.

Lemma addObject_body_guarded (obj : BaseObject) (w w' : world) :
  addObject_body DEBUG_MODE delete_ obj w = Returns w' → guarded w w'.
Proof.
  unfold addObject_body.
  destruct (emplace obj _) as [l inserted].
  set (w1 := set_liveObjects l (touch (lock (enter (CallAdd obj) w)))).
  assert (Hm1 : trackerMutex w1 = S (trackerMutex w)) by done.
  assert (Hs1 : span (trackerMutex w) w w1).
  { eapply span_trans; [apply span_enter|].
    eapply span_trans; [apply span_lock|].
    eapply span_trans; [apply span_touch; simpl; lia|].
    apply span_set_liveObjects. }
  assert (Hl1 : length (touched w) < length (touched w1)).
  { simpl. rewrite length_app. simpl. lia. }
  clearbody w1.
  intros (w2 & H2 & (w3 & [_ ->]%traced_Returns & [= <-])%bind_Returns)%bind_Returns.
  assert (Hf2 : framed w1 w2).
  { destruct inserted; [injection H2 as <-; apply framed_refl|by eapply delete_framed]. }
  destruct Hf2 as [Hm2 Hs2].
  apply (under_guard w w1); [done..| |].
  - by destruct DEBUG_MODE.
  - eapply span_trans; [|apply span_if_LOG].
    eapply span_weaken; [|exact Hs2]. lia.
Qed.

Lemma removeObject_body_guarded (obj : BaseObject) (w w' : world) :
  removeObject_body DEBUG_MODE isDebugLogEnabled delete_ obj w = Returns w' →
  guarded w w'.
Proof.
  unfold removeObject_body.
  intros (w0 & [_ ->]%traced_Returns & Hrun)%bind_Returns.
  set (w1 := touch _) in Hrun.
  assert (Hm1 : trackerMutex w1 = S (trackerMutex w)) by by destruct DEBUG_MODE.
  assert (Hs1 : span (trackerMutex w) w w1).
  { eapply span_trans; [apply span_enter|].
    eapply span_trans; [apply span_lock|].
    eapply span_trans; [apply span_if_LOG|].
    apply span_touch. destruct DEBUG_MODE; simpl; lia. }
  assert (Hl1 : length (touched w) < length (touched w1)).
  { unfold w1. destruct DEBUG_MODE; simpl; rewrite length_app; simpl; lia. }
  clearbody w1.
  destruct (find_if obj (liveObjects w1)) as [[it p]|].
  - apply bind_Returns in Hrun as (w3 & [Hm3 Hs3]%delete_framed & [= <-]).
    apply (under_guard w w1); [done..| |].
    + by rewrite Hm3.
    + eapply span_trans; [apply span_touch; lia|].
      eapply span_trans; [apply span_touch; simpl; lia|].
      eapply span_trans; [apply span_set_liveObjects|].
      eapply span_weaken; [|exact Hs3]. simpl. lia.
  - apply bind_Returns in Hrun as (w3 & [_ ->]%traced_Returns & [= <-]).
    apply (under_guard w w1); [done..| |].
    + by destruct isDebugLogEnabled.
    + eapply span_trans; [apply span_touch; lia|].
      apply span_if_LOG.
Qed.

End Frames.
(** ** The two bodies, inverted *)

Section Inversion.
Context (DEBUG_MODE isDebugLogEnabled : bool).
Context (delete_ : BaseObject → world → outcome world).

Lemma addObject_body_Returns (obj : BaseObject) (w w' : world) :
  addObject_body DEBUG_MODE delete_ obj w = Returns w' ↔
  ∃ w2,
    (if (emplace obj (liveObjects w)).2
     then w2 = after_emplace obj w
     else delete_ obj (after_emplace obj w) = Returns w2) ∧
    (DEBUG_MODE = true → live w2 obj) ∧
    w' = unlock (if DEBUG_MODE then LOG (tracking_message obj) w2 else w2).
Proof.
  unfold addObject_body, after_emplace. simpl.
  destruct (emplace obj (liveObjects w)) as [l inserted]. simpl.
  rewrite bind_Returns. split.
  - intros (w2 & H2 & (w3 & [Hlive ->]%traced_Returns & [= <-])%bind_Returns).
    exists w2. split_and!; [|done..]. destruct inserted; [by injection H2|done].
  - intros (w2 & H2 & Hlive & ->). exists w2. split.
    + destruct inserted; [by subst|done].
    + apply bind_Returns. eexists. split; [|done]. by apply traced_Returns.
Qed.

Lemma removeObject_body_Returns (obj : BaseObject) (w w' : world) :
  removeObject_body DEBUG_MODE isDebugLogEnabled delete_ obj w = Returns w' ↔
  (DEBUG_MODE = true → live w obj) ∧
  match find_if obj (liveObjects w) with
  | Some (it, p) =>
      ∃ w3, delete_ p (after_unlink DEBUG_MODE obj it w) = Returns w3 ∧
            w' = unlock w3
  | None =>
      (isDebugLogEnabled = true → live w obj) ∧
      w' = unlock (if isDebugLogEnabled
                   then LOG (not_tracked_message obj)
                            (touch (after_find_if DEBUG_MODE obj w))
                   else touch (after_find_if DEBUG_MODE obj w))
  end.
Proof.
  unfold removeObject_body, after_unlink, after_find_if.
  rewrite bind_Returns. split.
  - intros (w0 & [Hlive ->]%traced_Returns & Hrun). split; [done|].
    revert Hrun.
    destruct DEBUG_MODE; simpl;
      (destruct (find_if obj (liveObjects w)) as [[it p]|]; simpl;
       [ intros (w3 & H3 & [= <-])%bind_Returns; eauto
       | intros (w3 & [Hl ->]%traced_Returns & [= <-])%bind_Returns;
         split; [exact Hl|done] ]).
  - intros [Hlive Hrest]. eexists. split; [by apply traced_Returns|].
    revert Hrest.
    destruct DEBUG_MODE; simpl;
      (destruct (find_if obj (liveObjects w)) as [[it p]|]; simpl;
       [ intros (w3 & H3 & ->); apply bind_Returns; eauto
       | intros [Hl ->]; apply bind_Returns; eexists; split; [|done];
         by apply traced_Returns ]).
Qed.



Lemma after_emplace_fields (obj : BaseObject) (w : world) :
  liveObjects (after_emplace obj w) = (emplace obj (liveObjects w)).1 ∧
  trackerMutex (after_emplace obj w) = S (trackerMutex w) ∧
  calls (after_emplace obj w) = calls w ++ [CallAdd obj] ∧
  freed (after_emplace obj w) = freed w ∧
  cout (after_emplace obj w) = cout w.
Proof. done. Qed.

Lemma after_find_if_fields (obj : BaseObject) (w : world) :
  liveObjects (after_find_if DEBUG_MODE obj w) = liveObjects w ∧
  trackerMutex (after_find_if DEBUG_MODE obj w) = S (trackerMutex w) ∧
  calls (after_find_if DEBUG_MODE obj w) = calls w ++ [CallRemove obj] ∧
  freed (after_find_if DEBUG_MODE obj w) = freed w ∧
  cout (after_find_if DEBUG_MODE obj w) =
    cout w ++ (if DEBUG_MODE then [releasing_message obj] else []).
Proof.
  unfold after_find_if. destruct DEBUG_MODE; simpl; by rewrite ?app_nil_r.
Qed.

Lemma after_unlink_fields (obj : BaseObject) (it : nat) (w : world) :
  liveObjects (after_unlink DEBUG_MODE obj it w) = delete it (liveObjects w) ∧
  trackerMutex (after_unlink DEBUG_MODE obj it w) = S (trackerMutex w) ∧
  calls (after_unlink DEBUG_MODE obj it w) = calls w ++ [CallRemove obj] ∧
  freed (after_unlink DEBUG_MODE obj it w) = freed w.
Proof.
  unfold after_unlink. simpl.
  by destruct (after_find_if_fields obj w) as (? & ? & ? & ? & _).
Qed.

End Inversion.
(** ** The operations *)

Section Properties.
Context (DEBUG_MODE isDebugLogEnabled : bool) (dtor : BaseObject → list call).
Context (VC4CL_PRINT_API_CALL : string → string → list (string * option ptr) → list string).

Local Abbreviation exec := (exec DEBUG_MODE isDebugLogEnabled dtor).
Local Abbreviation addObject := (addObject DEBUG_MODE isDebugLogEnabled dtor).
Local Abbreviation removeObject := (removeObject DEBUG_MODE isDebugLogEnabled dtor).
Local Abbreviation delete_object := (delete_object DEBUG_MODE isDebugLogEnabled dtor).
Local Abbreviation sweep := (sweep DEBUG_MODE isDebugLogEnabled dtor).
Local Abbreviation report_leaks := (report_leaks isDebugLogEnabled).
Local Abbreviation leak_lines := (leak_lines isDebugLogEnabled).
Local Abbreviation leak_touches := (leak_touches isDebugLogEnabled).
Local Abbreviation ObjectTracker_destructor :=
  (ObjectTracker_destructor DEBUG_MODE isDebugLogEnabled dtor).
Local Abbreviation after_find_if := (after_find_if DEBUG_MODE).
Local Abbreviation after_unlink := (after_unlink DEBUG_MODE).

Lemma exec_add (fuel : nat) (obj : BaseObject) (w : world) :
  addObject (S fuel) obj w = addObject_body DEBUG_MODE (delete_object fuel) obj w.
Proof. done. Qed.

Lemma exec_remove (fuel : nat) (obj : BaseObject) (w : world) :
  removeObject (S fuel) obj w =
    removeObject_body DEBUG_MODE isDebugLogEnabled (delete_object fuel) obj w.
Proof. done. Qed.

Lemma exec_guarded (fuel : nat) (c : call) (w w' : world) :
  exec fuel c w = Returns w' → guarded w w'.
Proof.
  revert c w w'. induction fuel as [|f IH]; intros c w w'; simpl; [done|].
  destruct c as [obj|obj];
    [apply addObject_body_guarded|apply removeObject_body_guarded];
    apply delete_with_framed; intros cs; apply run_calls_framed;
    intros c' w3 w4 Hc'; by apply IH in Hc' as [? _].
Qed.

Lemma delete_object_framed (fuel : nat) (o : BaseObject) (w w' : world) :
  delete_object fuel o w = Returns w' → framed w w'.
Proof.
  apply delete_with_framed. intros cs. apply run_calls_framed.
  intros c w1 w2 Hc. by apply exec_guarded in Hc as [? _].
Qed.

(** The sweep starts by touching the set at whatever hold count it was
    entered with, and gives back the same hold count. *)
Lemma sweep_touches (fuel : nat) (w w' : world) :
  sweep fuel w = Returns w' →
  trackerMutex w' = trackerMutex w ∧
  (∃ t, touched w' = touched w ++ trackerMutex w :: t) ∧
  (∃ out, cout w' = cout w ++ out).
Proof.
  revert w w'. induction fuel as [|f IH]; intros w w'; simpl; [done|].
  destruct (last (liveObjects w)) as [o|].
  - set (w1 := set_liveObjects _ _).
    intros (w2 & E & (Hm & (t & Ht) & (out & Hout))%IH)%bind_Returns.
    apply delete_object_framed in E as (Hm2 & (t2 & Ht2 & _) & (out2 & Hout2) & _).
    split_and!.
    + by rewrite Hm, Hm2.
    + rewrite Ht, Ht2. simpl. rewrite <- !app_assoc. simpl. eauto.
    + rewrite Hout, Hout2. simpl. rewrite <- app_assoc. eauto.
  - intros [= <-]. simpl. split_and!; [done|by exists []|].
    exists []. by rewrite app_nil_r.
Qed.

(** ** iterateObjects *)

Lemma foldl_record_report (userData : ptr) (l : list BaseObject) (seen : list report) :
  foldl (λ v obj, record_report userData (getBasePointer obj) (typeName obj)
                    (referenceCount obj) v) seen l = seen ++ (report_of <$> l).
Proof.
  revert seen. induction l as [|x l IH]; intros seen; simpl.
  - by rewrite app_nil_r.
  - rewrite IH. unfold record_report, report_of. by rewrite <- app_assoc.
Qed.

(** C5. [iterateObjects] calls the visitor once for every entry of the set,
    in the order of the set, with the entry's base pointer, type name and
    reference count (and the caller's [userData]).  A visitor that keeps
    what it is handed ends with exactly one triple per tracked object: as
    many reports as objects, and the same multiset as the stored objects.
    The set and the lock are as before, and [clReportLiveObjectsAltera]
    reports the same. *)
Theorem iterateObjects_reports_each_once {V : Type} (func : ReportFunction V)
    (userData platform : ptr) (w : world) (v : V) :
  (iterateObjects func userData w v).2 =
    foldl (λ v obj, func userData (getBasePointer obj) (typeName obj)
                         (referenceCount obj) v) v (liveObjects w) ∧
  (iterateObjects record_report userData w []).2 = report_of <$> liveObjects w ∧
  length (iterateObjects record_report userData w []).2 = length (liveObjects w) ∧
  (iterateObjects record_report userData w []).2 ≡ₚ report_of <$> liveObjects w ∧
  liveObjects (iterateObjects func userData w v).1 = liveObjects w ∧
  trackerMutex (iterateObjects func userData w v).1 = trackerMutex w ∧
  (clReportLiveObjectsAltera VC4CL_PRINT_API_CALL platform record_report userData w []).2
    = report_of <$> liveObjects w.
Proof.
  split_and!; simpl; rewrite ?foldl_record_report; simpl; try done.
  by rewrite length_fmap.
Qed.

(** ** findTrackedObject *)

(** C6. [findTrackedObject] returns the first entry, in the order of the
    set, on which the predicate is true: every entry before it fails the
    predicate.  It returns the null pointer exactly when no entry satisfies
    the predicate, in particular for the empty set.  The set and the lock
    are as before. *)
Theorem findTrackedObject_first_match (predicate : BaseObject → bool) (w : world) :
  (∀ o, (findTrackedObject predicate w).2 = Some o ↔
        ∃ l1 l2, liveObjects w = l1 ++ o :: l2 ∧ predicate o = true ∧
                 Forall (λ x, predicate x = false) l1) ∧
  ((findTrackedObject predicate w).2 = None ↔
     Forall (λ x, predicate x = false) (liveObjects w)) ∧
  (liveObjects w = [] → (findTrackedObject predicate w).2 = None) ∧
  liveObjects (findTrackedObject predicate w).1 = liveObjects w ∧
  trackerMutex (findTrackedObject predicate w).1 = trackerMutex w.
Proof.
  simpl. generalize (liveObjects w) as l. intros l. split_and!; try done.
  - intros o. induction l as [|x l IH]; simpl.
    + split; [done|]. intros (l1 & l2 & Hl & _). by destruct l1.
    + destruct (predicate x) eqn:Hx.
      * split.
        -- intros [= ->]. by exists [], l.
        -- intros (l1 & l2 & Hl & Ho & Hl1). destruct l1 as [|y l1].
           ++ by injection Hl as -> _.
           ++ injection Hl as -> _. apply Forall_cons in Hl1 as [Hy _]. congruence.
      * rewrite IH. split.
        -- intros (l1 & l2 & -> & Ho & Hl1). exists (x :: l1), l2.
           split_and!; [done..|]. by constructor.
        -- intros (l1 & l2 & Hl & Ho & Hl1). destruct l1 as [|y l1].
           ++ injection Hl as -> _. congruence.
           ++ injection Hl as -> ->. apply Forall_cons in Hl1 as [_ Hl1]. eauto.
  - induction l as [|x l IH]; simpl.
    + split; [constructor|done].
    + destruct (predicate x) eqn:Hx.
      * split; [done|]. intros [Hx' _]%Forall_cons. congruence.
      * rewrite IH. split; [by constructor|]. by intros [_ ?]%Forall_cons.
  - by intros ->.
Qed.

(** ** clTrackLiveObjectsAltera *)

(** C10. [clTrackLiveObjectsAltera] does nothing to the tracker, whatever
    the platform: the set, the lock and the histories are those of before,
    and the only output is what the API-call tracing macro writes. *)
Theorem clTrackLiveObjectsAltera_keeps_tracker (platform : ptr) (w : world) :
  liveObjects (clTrackLiveObjectsAltera VC4CL_PRINT_API_CALL platform w) = liveObjects w ∧
  trackerMutex (clTrackLiveObjectsAltera VC4CL_PRINT_API_CALL platform w) = trackerMutex w ∧
  touched (clTrackLiveObjectsAltera VC4CL_PRINT_API_CALL platform w) = touched w ∧
  calls (clTrackLiveObjectsAltera VC4CL_PRINT_API_CALL platform w) = calls w ∧
  cout (clTrackLiveObjectsAltera VC4CL_PRINT_API_CALL platform w) =
    cout w ++ VC4CL_PRINT_API_CALL "void"%string "clTrackLiveObjectsAltera"%string
                [("cl_platform_id"%string, Some platform)].
Proof. done. Qed.

(** ** The leak report in closed form *)

Lemma foldl_LOG (msg : BaseObject → string) (l : list BaseObject) (w : world) :
  foldl (λ w obj, LOG (msg obj) w) w l =
    mkWorld (liveObjects w) (trackerMutex w) (cout w ++ (msg <$> l))
            (touched w) (calls w) (freed w).
Proof.
  revert w. induction l as [|x l IH]; intros w; simpl.
  - rewrite app_nil_r. by destruct w.
  - rewrite IH. simpl. by rewrite <- app_assoc.
Qed.

Lemma report_leaks_eq (w : world) :
  report_leaks w =
    mkWorld (liveObjects w) (trackerMutex w)
            (cout w ++ leak_lines (liveObjects w))
            (touched w ++ leak_touches (trackerMutex w) (liveObjects w))
            (calls w) (freed w).
Proof.
  unfold report_leaks, leak_lines, leak_touches.
  destruct w as [l m out t cs fr]. destruct isDebugLogEnabled; simpl.
  - destruct l as [|x l]; simpl.
    + by rewrite app_nil_r.
    + rewrite foldl_LOG. unfold LOG, touch. simpl.
      f_equal; by rewrite <- !app_assoc.
  - by rewrite !app_nil_r.
Qed.

(** ** The lock *)

Lemma guarded_lock_touch_unlock (w : world) : guarded w (unlock (touch (lock w))).
Proof.
  split; [split|]; simpl.
  - done.
  - split_and!; simpl.
    + exists [S (trackerMutex w)]. split; [done|]. repeat constructor.
    + exists []. by rewrite app_nil_r.
    + exists []. by rewrite app_nil_r.
  - rewrite length_app. simpl. lia.
Qed.

(** C8, as amended.  [addObject], [removeObject], [iterateObjects] and
    [findTrackedObject] take the recursive mutex before their first access
    to the set, make every access while holding it, the re-entrant ones of
    destructors included, and give it back.  The destructor of the tracker
    takes no lock of its own: its first access to the set happens with the
    mutex held as often as it was on entry. *)
Theorem operations_hold_the_lock :
  (∀ fuel obj w w', addObject fuel obj w = Returns w' → guarded w w') ∧
  (∀ fuel obj w w', removeObject fuel obj w = Returns w' → guarded w w') ∧
  (∀ (V : Type) (func : ReportFunction V) userData w v,
     guarded w (iterateObjects func userData w v).1) ∧
  (∀ predicate w, guarded w (findTrackedObject predicate w).1) ∧
  (∀ fuel w w', ObjectTracker_destructor fuel w = Returns w' →
     trackerMutex w' = trackerMutex w ∧
     ∃ t, touched w' = touched w ++ trackerMutex w :: t).
Proof.
  split_and!.
  - intros fuel obj w w'. apply exec_guarded.
  - intros fuel obj w w'. apply exec_guarded.
  - intros V func userData w v. apply guarded_lock_touch_unlock.
  - intros predicate w. apply guarded_lock_touch_unlock.
  - intros fuel w w'. unfold ObjectTracker_destructor.
    rewrite report_leaks_eq.
    intros (Hm & (t & Ht) & _)%sweep_touches. simpl in *.
    split; [done|]. rewrite Ht. unfold leak_touches.
    destruct isDebugLogEnabled; [destruct (liveObjects w)|]; simpl;
      rewrite <- ?app_assoc, ?app_nil_r; simpl; eauto.
Qed.

(** ** The set against the history of calls *)

Lemma NoDup_snoc_inv {A} (l : list A) (x : A) :
  NoDup (l ++ [x]) → (x ∉ l) ∧ NoDup l.
Proof.
  intros (Hl & Hdis & _)%NoDup_app. split; [|done].
  intros Hx. apply (Hdis x Hx). by left.
Qed.

Lemma added_app (cs1 cs2 : list call) : added (cs1 ++ cs2) = added cs1 ++ added cs2.
Proof.
  induction cs1 as [|[o|o] cs1 IH]; simpl; [done| |done]. by rewrite IH.
Qed.

Lemma added_not_removed_added (cs : list call) (o : BaseObject) :
  added_not_removed cs o → addr o ∈ added cs.
Proof.
  intros (l1 & l2 & -> & _). rewrite added_app. simpl.
  apply elem_of_app. right. by left.
Qed.

Lemma added_not_removed_snoc_add (cs : list call) (obj o : BaseObject) :
  added_not_removed (cs ++ [CallAdd obj]) o ↔ o = obj ∨ added_not_removed cs o.
Proof.
  split.
  - intros (l1 & l2 & Heq & Hl2).
    destruct l2 as [|c l2 _] using rev_ind.
    + apply app_inj_tail in Heq as [_ [= ->]]. by left.
    + rewrite app_comm_cons, app_assoc in Heq.
      apply app_inj_tail in Heq as [-> <-]. right.
      exists l1, l2. split; [done|]. by apply Forall_app in Hl2 as [? _].
  - intros [->|(l1 & l2 & -> & Hl2)].
    + exists cs, []. by split.
    + exists l1, (l2 ++ [CallAdd obj]). rewrite <- app_assoc. split; [done|].
      apply Forall_app. split; [done|]. repeat constructor. by intros [].
Qed.

Lemma added_not_removed_snoc_remove (cs : list call) (obj o : BaseObject) :
  added_not_removed (cs ++ [CallRemove obj]) o ↔
  added_not_removed cs o ∧ addr obj ≠ addr o.
Proof.
  split.
  - intros (l1 & l2 & Heq & Hl2).
    destruct l2 as [|c l2 _] using rev_ind.
    + by apply app_inj_tail in Heq as [_ [=]].
    + rewrite app_comm_cons, app_assoc in Heq.
      apply app_inj_tail in Heq as [-> <-].
      apply Forall_app in Hl2 as [Hl2 Hc]. apply Forall_inv in Hc.
      split; [by exists l1, l2|done].
  - intros [(l1 & l2 & -> & Hl2) Hne].
    exists l1, (l2 ++ [CallRemove obj]). rewrite <- app_assoc. split; [done|].
    apply Forall_app. split; [done|]. by repeat constructor.
Qed.

Lemma consistent_ext (w w' : world) :
  liveObjects w' = liveObjects w → calls w' = calls w →
  consistent w → consistent w'.
Proof. unfold consistent. by intros -> ->. Qed.

Lemma run_calls_consistent (step : call → world → outcome world) :
  (∀ c w w', step c w = Returns w' → consistent w → consistent w') →
  ∀ cs w w', run_calls step cs w = Returns w' → consistent w → consistent w'.
Proof.
  intros Hstep cs. induction cs as [|c cs IH]; simpl; intros w w' Hrun Hw.
  - by injection Hrun as <-.
  - apply bind_Returns in Hrun as (w1 & E & Hrun). eauto.
Qed.

Lemma delete_with_consistent (run : list call → world → outcome world) :
  (∀ cs w w', run cs w = Returns w' → consistent w → consistent w') →
  ∀ o w w', delete_with dtor run o w = Returns w' → consistent w → consistent w'.
Proof.
  intros Hrun o w w' [[_ ->]|(_ & _ & w1 & H1 & _ & ->)]%delete_with_Returns Hw;
    [done|].
  eapply consistent_ext; [| |by eapply Hrun]; done.
Qed.

Section Consistency.
Context (delete_ : BaseObject → world → outcome world).
Hypothesis delete_consistent :
  ∀ o w w', delete_ o w = Returns w' → consistent w → consistent w'.

Lemma after_emplace_consistent (obj : BaseObject) (w : world) :
  consistent w → consistent (after_emplace obj w).
Proof.
  intros [Hwf Hiff]. split.
  - by apply emplace_wf.
  - simpl. rewrite added_app. simpl. intros [Hnin Hnd]%NoDup_snoc_inv o.
    assert (Hn : ¬ tracked obj (liveObjects w)).
    { intros (o' & Ho & Ho')%list_elem_of_fmap. apply Hnin. rewrite Ho.
      by apply added_not_removed_added, Hiff. }
    rewrite added_not_removed_snoc_add, <- (Hiff Hnd).
    by apply emplace_elem_of.
Qed.

Lemma addObject_body_consistent (obj : BaseObject) (w w' : world) :
  addObject_body DEBUG_MODE delete_ obj w = Returns w' →
  consistent w → consistent w'.
Proof.
  intros (w2 & H2 & _ & ->)%addObject_body_Returns Hw.
  apply (after_emplace_consistent obj) in Hw.
  assert (Hw2 : consistent w2).
  { destruct (emplace obj (liveObjects w)).2; [by subst|by eapply delete_consistent]. }
  eapply consistent_ext; [| |exact Hw2]; by destruct DEBUG_MODE.
Qed.

Lemma removeObject_body_consistent (obj : BaseObject) (w w' : world) :
  removeObject_body DEBUG_MODE isDebugLogEnabled delete_ obj w = Returns w' →
  consistent w → consistent w'.
Proof.
  intros [_ Hrun]%removeObject_body_Returns [Hwf Hiff].
  destruct (find_if obj (liveObjects w)) as [[it p]|] eqn:Hfind.
  - destruct Hrun as (w3 & H3 & ->).
    destruct (after_unlink_fields DEBUG_MODE obj it w) as (Hl & _ & Hc & _).
    assert (Hw2 : consistent (after_unlink obj it w)).
    { split; rewrite Hl.
      - eapply set_wf_sublist; [apply sublist_delete|done].
      - rewrite Hc, added_app. simpl. rewrite app_nil_r. intros Hnd o.
        rewrite added_not_removed_snoc_remove, <- (Hiff Hnd).
        rewrite (erase_elem_of obj p o it) by done.
        split; (intros [??]; split; [done|congruence]). }
    eapply consistent_ext; [| |exact (delete_consistent _ _ _ H3 Hw2)]; done.
  - destruct Hrun as [_ ->]. apply find_if_None in Hfind.
    destruct (after_find_if_fields DEBUG_MODE obj w) as (Hl & _ & Hc & _).
    eapply (consistent_ext (after_find_if obj w));
      [by destruct isDebugLogEnabled..|].
    split; rewrite Hl; [done|].
    rewrite Hc, added_app. simpl. rewrite app_nil_r. intros Hnd o.
    rewrite added_not_removed_snoc_remove, <- (Hiff Hnd).
    split; [|by intros [? _]]. intros Ho. split; [done|].
    intros Heq. apply Hfind. unfold tracked, identities. rewrite Heq.
    by apply list_elem_of_fmap_2.
Qed.

End Consistency.

Lemma exec_consistent (fuel : nat) (c : call) (w w' : world) :
  exec fuel c w = Returns w' → consistent w → consistent w'.
Proof.
  revert c w w'. induction fuel as [|f IH]; intros c w w'; simpl; [done|].
  destruct c as [obj|obj];
    [apply addObject_body_consistent|apply removeObject_body_consistent];
    apply delete_with_consistent; intros cs; apply run_calls_consistent; apply IH.
Qed.

Lemma consistent_initially : consistent liveObjectsTracker.
Proof.
  split; [apply set_wf_nil|]. intros _ o. simpl. split.
  - by intros ?%elem_of_nil.
  - intros (l1 & l2 & Heq & _). by destruct l1.
Qed.

(** C3.  In every state reached from the initial tracker by a sequence of
    [addObject] and [removeObject] calls, no identity is held twice.  When
    the identities passed to [addObject], the re-entrant calls of
    destructors included, are pairwise distinct, an object is in the set if
    and only if it was added and its identity was not passed to
    [removeObject] afterwards.  [iterateObjects] reports each entry of that
    set once, so no two reports come from the same identity, and, the base
    pointer being particular to its object, no two reports carry the same
    token. *)
Theorem tracker_holds_each_identity_once (fuel : nat) (cs : list call) (w : world) :
  run_calls (exec fuel) cs liveObjectsTracker = Returns w →
  NoDup (identities (liveObjects w)) ∧
  (NoDup (added (calls w)) →
   ∀ o, o ∈ liveObjects w ↔ added_not_removed (calls w) o) ∧
  (∀ userData,
     (iterateObjects record_report userData w []).2 = report_of <$> liveObjects w) ∧
  ((∀ o o', o ∈ liveObjects w → o' ∈ liveObjects w →
            getBasePointer o = getBasePointer o' → addr o = addr o') →
   ∀ userData,
     NoDup ((λ r : report, r.1.1) <$> (iterateObjects record_report userData w []).2)).
Proof.
  intros Hrun.
  assert (Hw : consistent w).
  { eapply run_calls_consistent; [|exact Hrun|apply consistent_initially].
    intros c w1 w2. apply exec_consistent. }
  destruct Hw as [Hwf Hiff]. apply set_wf_NoDup in Hwf.
  assert (Hrep : ∀ userData,
    (iterateObjects record_report userData w []).2 = report_of <$> liveObjects w).
  { intros userData. simpl. by rewrite foldl_record_report. }
  split_and!; [done..|].
  intros Hinj userData. rewrite Hrep, <- list_fmap_compose.
  apply NoDup_fmap_2_strong; [|by eapply NoDup_fmap_1].
  intros o o' Ho Ho' Heq. simpl in Heq.
  eapply (NoDup_fmap_same addr); eauto.
Qed.

(** ** Well-formedness is kept, whatever the destructors do *)

Lemma run_calls_wf (step : call → world → outcome world) :
  (∀ c w w', step c w = Returns w' →
             set_wf (liveObjects w) → set_wf (liveObjects w')) →
  ∀ cs w w', run_calls step cs w = Returns w' →
             set_wf (liveObjects w) → set_wf (liveObjects w').
Proof.
  intros Hstep cs. induction cs as [|c cs IH]; simpl; intros w w' Hrun Hw.
  - by injection Hrun as <-.
  - apply bind_Returns in Hrun as (w1 & E & Hrun). eauto.
Qed.

Lemma delete_with_wf (run : list call → world → outcome world) :
  (∀ cs w w', run cs w = Returns w' →
              set_wf (liveObjects w) → set_wf (liveObjects w')) →
  ∀ o w w', delete_with dtor run o w = Returns w' →
            set_wf (liveObjects w) → set_wf (liveObjects w').
Proof.
  intros Hrun o w w' [[_ ->]|(_ & _ & w1 & H1 & _ & ->)]%delete_with_Returns Hw;
    [done|].
  simpl. by eapply Hrun.
Qed.

Lemma exec_wf (fuel : nat) (c : call) (w w' : world) :
  exec fuel c w = Returns w' → set_wf (liveObjects w) → set_wf (liveObjects w').
Proof.
  revert c w w'. induction fuel as [|f IH]; intros c w w'; [done|].
  assert (Hdel : ∀ o w1 w2, delete_object f o w1 = Returns w2 →
                            set_wf (liveObjects w1) → set_wf (liveObjects w2)).
  { apply delete_with_wf. intros cs. apply run_calls_wf. apply IH. }
  destruct c as [obj|obj]; intros Hrun Hwf.
  - apply addObject_body_Returns in Hrun as (w2 & H2 & _ & ->).
    assert (Hwf1 : set_wf (liveObjects (after_emplace obj w))) by by apply emplace_wf.
    assert (set_wf (liveObjects w2)).
    { destruct (emplace obj (liveObjects w)).2; [by subst|by eapply Hdel]. }
    by destruct DEBUG_MODE.
  - apply removeObject_body_Returns in Hrun as [_ Hrun].
    destruct (find_if obj (liveObjects w)) as [[it p]|] eqn:Hfind.
    + destruct Hrun as (w3 & H3 & ->). simpl. eapply Hdel; [exact H3|].
      destruct (after_unlink_fields DEBUG_MODE obj it w) as (-> & _).
      eapply set_wf_sublist; [apply sublist_delete|done].
    + destruct Hrun as [_ ->].
      destruct (after_find_if_fields DEBUG_MODE obj w) as (Hl & _).
      rewrite <- Hl in Hwf. by destruct isDebugLogEnabled.
Qed.

(** X6.  Every call that returns, with any destructors, leaves a
    well-formed set well formed: addresses strictly ascending, so no
    identity twice; and so does a sequence of calls. *)
Theorem calls_keep_set_well_formed (fuel : nat) (cs : list call) (w w' : world) :
  set_wf (liveObjects w) →
  run_calls (exec fuel) cs w = Returns w' →
  set_wf (liveObjects w') ∧ NoDup (identities (liveObjects w')).
Proof.
  intros Hwf Hrun.
  assert (set_wf (liveObjects w')).
  { eapply run_calls_wf; [|exact Hrun|exact Hwf]. apply exec_wf. }
  split; [done|]. by apply set_wf_NoDup.
Qed.

(** ** The paths of addObject and removeObject *)

(** Deleting a live object whose destructor makes no tracker call. *)
Lemma delete_object_plain (fuel : nat) (p : BaseObject) (w : world) :
  dtor p = [] → addr p ∉ freed w →
  ∃ w', delete_object fuel p w = Returns w' ∧
        liveObjects w' = liveObjects w ∧
        trackerMutex w' = trackerMutex w ∧
        cout w' = cout w ∧
        calls w' = calls w ∧
        (∀ a, a ∈ freed w' → a = addr p ∨ a ∈ freed w).
Proof.
  intros Hplain Hlive. unfold delete_object, delete_with.
  rewrite Hplain. simpl. case_decide.
  { exists w. split_and!; auto. }
  rewrite !decide_False by done. eexists. split; [done|]. simpl.
  split_and!; [done..|]. intros a [->|?]%elem_of_cons; auto.
Qed.

(** The inserted path of [addObject]. *)
Lemma addObject_inserted (fuel : nat) (obj : BaseObject) (w : world) :
  ¬ tracked obj (liveObjects w) → (DEBUG_MODE = true → live w obj) →
  ∃ w', addObject (S fuel) obj w = Returns w' ∧
        liveObjects w' = (emplace obj (liveObjects w)).1 ∧
        trackerMutex w' = trackerMutex w ∧
        freed w' = freed w.
Proof.
  intros Hn Hlive.
  assert (Hins : (emplace obj (liveObjects w)).2 = true).
  { destruct (emplace_fresh obj _ Hn) as (l1 & l2 & _ & ->). done. }
  eexists. split.
  - rewrite exec_add. apply addObject_body_Returns.
    exists (after_emplace obj w). by rewrite Hins.
  - by destruct DEBUG_MODE.
Qed.

(** The found path of [removeObject], for an entry whose destructor makes
    no tracker call. *)
Lemma removeObject_found_plain (fuel it : nat) (obj p : BaseObject) (w : world) :
  find_if obj (liveObjects w) = Some (it, p) →
  dtor p = [] → live w obj →
  ∃ w', removeObject (S fuel) obj w = Returns w' ∧
        liveObjects w' = delete it (liveObjects w) ∧
        trackerMutex w' = trackerMutex w ∧
        (∀ a, a ∈ freed w' → a = addr obj ∨ a ∈ freed w).
Proof.
  intros Hfind Hplain [Hnull Hlive].
  pose proof (find_if_Some _ _ _ _ Hfind) as (_ & Hp & _).
  destruct (after_unlink_fields DEBUG_MODE obj it w) as (Hl & Hm & _ & Hf).
  destruct (delete_object_plain fuel p (after_unlink obj it w) Hplain)
    as (w3 & H3 & Hl3 & Hm3 & _ & _ & Hf3).
  { by rewrite Hf, Hp. }
  exists (unlock w3). split.
  - rewrite exec_remove. apply removeObject_body_Returns. rewrite Hfind.
    split; [done|]. eauto.
  - simpl. rewrite Hl3, Hl, Hm3, Hm. split_and!; [done..|].
    intros a [->|Ha]%Hf3; [by left|]. right. by rewrite <- Hf.
Qed.

(** The not-found path of [removeObject]. *)
Lemma removeObject_not_found (fuel : nat) (obj : BaseObject) (w : world) :
  find_if obj (liveObjects w) = None →
  (DEBUG_MODE = true ∨ isDebugLogEnabled = true → live w obj) →
  ∃ w', removeObject (S fuel) obj w = Returns w' ∧
        liveObjects w' = liveObjects w ∧
        trackerMutex w' = trackerMutex w ∧
        freed w' = freed w ∧
        cout w' = cout w
          ++ (if DEBUG_MODE then [releasing_message obj] else [])
          ++ (if isDebugLogEnabled then [not_tracked_message obj] else []).
Proof.
  intros Hfind Hlive. eexists. split.
  - rewrite exec_remove. apply removeObject_body_Returns. rewrite Hfind.
    split_and!; [auto..|done].
  - destruct (after_find_if_fields DEBUG_MODE obj w) as (Hl & Hm & _ & Hf & Hc).
    destruct isDebugLogEnabled;
      cbn [unlock LOG touch liveObjects trackerMutex freed cout];
      rewrite Hl, Hm, Hf, Hc, ?app_nil_r, <- ?app_assoc; done.
Qed.

(** The state after a [removeObject] whose entry has a destructor that makes
    no tracker call. *)
Lemma removeObject_exact (fuel : nat) (obj : BaseObject) (w : world) :
  set_wf (liveObjects w) → live w obj →
  (∀ p, p ∈ liveObjects w → addr p = addr obj → dtor p = []) →
  ∃ w', removeObject (S fuel) obj w = Returns w' ∧
        set_wf (liveObjects w') ∧
        (∀ o, o ∈ liveObjects w' ↔ o ∈ liveObjects w ∧ addr o ≠ addr obj) ∧
        (∀ a, a ∈ freed w' → a = addr obj ∨ a ∈ freed w).
Proof.
  intros Hwf Hlive Hplain.
  destruct (find_if obj (liveObjects w)) as [[it p]|] eqn:Hfind.
  - pose proof (find_if_Some _ _ _ _ Hfind) as (_ & Hp & Hin).
    destruct (removeObject_found_plain fuel it obj p w Hfind (Hplain p Hin Hp) Hlive)
      as (w' & Hrun & Hl & _ & Hf).
    exists w'. rewrite Hl. split_and!; [done| | |done].
    + eapply set_wf_sublist; [apply sublist_delete|done].
    + intros o. by apply (erase_elem_of obj p o it).
  - destruct (removeObject_not_found fuel obj w Hfind) as (w' & Hrun & Hl & _ & Hf & _);
      [done|].
    exists w'. rewrite Hl, Hf. split_and!; [done..| |by right].
    apply find_if_None in Hfind. intros o. split; [|by intros [? _]].
    intros Ho. split; [done|]. intros Heq. apply Hfind.
    unfold tracked, identities. rewrite <- Heq. by apply list_elem_of_fmap_2.
Qed.
(** ** removeObject of an identity that is not tracked *)

(** C2.  For an identity that no entry of the set has, [removeObject]
    compares pointers, finds nothing and erases nothing.  When the pointer
    designates a live object (it was never added), the call returns and
    leaves the set, the lock and the storage as they were, with the optional
    trace as only output.  When the object was deleted (it was removed
    before) the two trace statements read its type name through the dangling
    pointer: in a debug build, or with the debug log enabled, the call is
    undefined behaviour, as it is for the null pointer; only in a build
    without traces and with the debug log off does it return, without any
    effect. *)
Theorem removeObject_untracked_noop_or_reads_freed (fuel : nat) (obj : BaseObject)
    (w : world) :
  ¬ tracked obj (liveObjects w) →
  (live w obj →
   ∃ w', removeObject (S fuel) obj w = Returns w' ∧
         liveObjects w' = liveObjects w ∧
         trackerMutex w' = trackerMutex w ∧
         freed w' = freed w ∧
         cout w' = cout w
           ++ (if DEBUG_MODE then [releasing_message obj] else [])
           ++ (if isDebugLogEnabled then [not_tracked_message obj] else [])) ∧
  (dangling w obj → DEBUG_MODE || isDebugLogEnabled = true →
   removeObject (S fuel) obj w = Undefined (UseAfterFree (addr obj))) ∧
  (addr obj = nullptr → DEBUG_MODE || isDebugLogEnabled = true →
   removeObject (S fuel) obj w = Undefined NullDereference) ∧
  (DEBUG_MODE || isDebugLogEnabled = false →
   ∃ w', removeObject (S fuel) obj w = Returns w' ∧
         liveObjects w' = liveObjects w ∧
         trackerMutex w' = trackerMutex w ∧
         freed w' = freed w ∧
         cout w' = cout w).
Proof.
  intros Hfind%find_if_None. split_and!.
  - intros Hlive. by apply removeObject_not_found.
  - intros Hd Hlog. rewrite exec_remove. unfold removeObject_body.
    destruct DEBUG_MODE; simpl.
    + by rewrite log_object_dangling.
    + simpl in Hlog. rewrite Hfind, Hlog. simpl.
      by rewrite log_object_dangling.
  - intros Hnull Hlog. rewrite exec_remove. unfold removeObject_body.
    destruct DEBUG_MODE; simpl.
    + by rewrite log_object_null.
    + simpl in Hlog. rewrite Hfind, Hlog. simpl.
      by rewrite log_object_null.
  - intros [HD HI]%orb_false_elim.
    destruct (removeObject_not_found fuel obj w Hfind) as (w' & ? & ? & ? & ? & Hc).
    { rewrite HD, HI. by intros [|]. }
    exists w'. split_and!; [done..|]. by rewrite Hc, HD, HI, !app_nil_r.
Qed.

(** ** Adding and removing the same object *)

(** C4, as amended.  For a live object that is not tracked and whose
    destructor makes no tracker call, [addObject] followed by
    [removeObject] returns and gives back the set and the lock of before:
    [iterateObjects] and [findTrackedObject] cannot tell the state from the
    one before the [addObject]. *)
Theorem add_then_remove_restores_set (f1 f2 : nat) (obj : BaseObject) (w : world) :
  ¬ tracked obj (liveObjects w) → dtor obj = [] → live w obj →
  ∃ w1 w2,
    addObject (S f1) obj w = Returns w1 ∧
    removeObject (S f2) obj w1 = Returns w2 ∧
    liveObjects w2 = liveObjects w ∧
    trackerMutex w2 = trackerMutex w ∧
    (∀ (V : Type) (func : ReportFunction V) userData v,
       (iterateObjects func userData w2 v).2 = (iterateObjects func userData w v).2) ∧
    (∀ predicate,
       (findTrackedObject predicate w2).2 = (findTrackedObject predicate w).2).
Proof.
  intros Hn Hdtor Hlive.
  destruct (emplace_fresh obj (liveObjects w) Hn) as (l1 & l2 & Hl & Hem).
  destruct (addObject_inserted f1 obj w Hn) as (w1 & Hrun1 & Hl1 & Hm1 & Hf1); [done|].
  rewrite Hem in Hl1. simpl in Hl1.
  assert (Hfind : find_if obj (liveObjects w1) = Some (length l1, obj)).
  { rewrite Hl1. apply find_if_emplaced. by rewrite <- Hl. }
  destruct (removeObject_found_plain f2 (length l1) obj obj w1 Hfind Hdtor)
    as (w2 & Hrun2 & Hl2 & Hm2 & _).
  { unfold live. by rewrite Hf1. }
  exists w1, w2.
  assert (liveObjects w2 = liveObjects w) as Heq.
  { by rewrite Hl2, Hl1, delete_middle. }
  split_and!; [done..|congruence| |]; intros; simpl; by rewrite Heq.
Qed.

(** ** Adding an identity that is already tracked *)

(** C9.  [addObject] of a live object whose identity is already tracked
    (taken here with a destructor that makes no tracker call): the set
    rejects the key and the temporary owner deletes the object.  In a debug
    build the trace then reads the deleted object: undefined behaviour.
    Otherwise the call returns with the set as it was, but the object is
    gone and its entry dangles: a later [removeObject] of it deletes it a
    second time. *)
Theorem addObject_tracked_deletes_object (fuel fuel' : nat) (obj : BaseObject)
    (w : world) :
  set_wf (liveObjects w) → tracked obj (liveObjects w) → live w obj →
  dtor obj = [] →
  (DEBUG_MODE = true →
   addObject (S fuel) obj w = Undefined (UseAfterFree (addr obj))) ∧
  (DEBUG_MODE = false →
   ∃ w', addObject (S fuel) obj w = Returns w' ∧
         liveObjects w' = liveObjects w ∧
         tracked obj (liveObjects w') ∧
         dangling w' obj ∧
         removeObject (S fuel') obj w' = Undefined (DoubleDelete (addr obj))).
Proof.
  intros Hwf Ht [Hnull Hlive] Hplain.
  assert (Hadd : addObject (S fuel) obj w =
            (if DEBUG_MODE
             then log_object tracking_message obj
                    (mark_freed (addr obj) (after_emplace obj w))
             else Returns (mark_freed (addr obj) (after_emplace obj w)))
            ≫= λ w, Returns (unlock w)).
  { rewrite exec_add. unfold addObject_body, after_emplace. simpl.
    rewrite emplace_tracked by done. simpl.
    unfold delete_object, delete_with. simpl. rewrite Hplain. simpl.
    by rewrite !decide_False by done. }
  split; intros HD; rewrite Hadd.
  - rewrite HD, log_object_dangling; [done|]. split; [done|]. by left.
  - exists (unlock (mark_freed (addr obj) (after_emplace obj w))).
    assert (Hset : liveObjects (unlock (mark_freed (addr obj) (after_emplace obj w)))
                   = liveObjects w).
    { simpl. by rewrite emplace_tracked. }
    split_and!; [by rewrite HD|done|by rewrite Hset|split; [done|by left]|].
    rewrite exec_remove, HD. unfold removeObject_body.
    simpl. rewrite emplace_tracked by done. simpl.
    destruct (find_if obj (liveObjects w)) as [[it p]|] eqn:Hfind.
    + pose proof (find_if_Some _ _ _ _ Hfind) as (_ & Hp & _).
      unfold delete_object, delete_with. simpl. rewrite Hp.
      rewrite decide_False by done. by rewrite decide_True by by left.
    + by apply find_if_None in Hfind.
Qed.

(** ** What addObject and removeObject leave behind *)

(** X1.  [addObject] of a live object whose identity is not tracked
    returns, for any positive fuel; the set stays well formed and holds the
    new object and exactly the objects it held, one more than before; the
    lock is given back; and [findTrackedObject] with the identity of the
    object finds it. *)
Theorem addObject_untracked_tracks (fuel : nat) (obj : BaseObject) (w : world) :
  set_wf (liveObjects w) → ¬ tracked obj (liveObjects w) → live w obj →
  ∃ w', addObject (S fuel) obj w = Returns w' ∧
        set_wf (liveObjects w') ∧
        (∀ o, o ∈ liveObjects w' ↔ o = obj ∨ o ∈ liveObjects w) ∧
        length (liveObjects w') = S (length (liveObjects w)) ∧
        trackerMutex w' = trackerMutex w ∧
        (findTrackedObject (has_identity (addr obj)) w').2 = Some obj.
Proof.
  intros Hwf Hn Hlive.
  assert (Hins : (emplace obj (liveObjects w)).2 = true).
  { destruct (emplace_fresh obj _ Hn) as (l1 & l2 & _ & ->). done. }
  destruct (addObject_inserted fuel obj w Hn) as (w' & Hrun & Hl & Hm & _); [done|].
  exists w'. rewrite Hl.
  assert (Hmem : ∀ o, o ∈ (emplace obj (liveObjects w)).1 ↔ o = obj ∨ o ∈ liveObjects w)
    by (intros o; by apply emplace_elem_of).
  split_and!; [done|by apply emplace_wf|done| |done|].
  - by rewrite emplace_length, Hins.
  - simpl. rewrite Hl. apply scan_has_identity; [by apply emplace_wf|].
    apply Hmem. by left.
Qed.

(** X3.  When the pointer designates a live object and the destructor of
    the entry with its identity makes no tracker call, [removeObject]
    returns for any positive fuel and removes that entry and nothing else:
    the set holds exactly the objects it held whose identity is another
    one, in the same order. *)
Theorem removeObject_removes_only_that_entry (fuel : nat) (obj : BaseObject) (w : world) :
  set_wf (liveObjects w) → live w obj →
  (∀ p, p ∈ liveObjects w → addr p = addr obj → dtor p = []) →
  ∃ w', removeObject (S fuel) obj w = Returns w' ∧
        (∀ o, o ∈ liveObjects w' ↔ o ∈ liveObjects w ∧ addr o ≠ addr obj) ∧
        liveObjects w' = filter (λ o, addr o ≠ addr obj) (liveObjects w) ∧
        set_wf (liveObjects w').
Proof.
  intros Hwf Hlive Hplain.
  destruct (removeObject_exact fuel obj w Hwf Hlive Hplain)
    as (w' & Hrun & Hwf' & Hmem & _).
  exists w'. split_and!; [done..| |done].
  apply set_wf_ext; [done| |].
  - eapply set_wf_sublist; [apply sublist_filter|done].
  - intros o. rewrite Hmem, list_elem_of_filter. tauto.
Qed.

(** ** Looking an object up *)

(** X4.  In a well-formed set [findTrackedObject] with the predicate
    "has this pointer" returns an object exactly when that object is in the
    set with that identity, and the null pointer exactly when the identity
    is not tracked. *)
Theorem findTrackedObject_by_identity (a : ptr) (w : world) :
  set_wf (liveObjects w) →
  (∀ o, (findTrackedObject (has_identity a) w).2 = Some o ↔
        o ∈ liveObjects w ∧ addr o = a) ∧
  ((findTrackedObject (has_identity a) w).2 = None ↔
   a ∉ identities (liveObjects w)).
Proof.
  intros Hwf. simpl. split.
  - intros o. split.
    + intros [Ho Heq]%scan_Some. split; [done|].
      by apply bool_decide_eq_true_1 in Heq.
    + intros [Ho <-]. by apply scan_has_identity.
  - rewrite scan_None. unfold identities. split.
    + intros Hnone (o & -> & Ho)%list_elem_of_fmap.
      specialize (Hnone o Ho). by apply bool_decide_eq_false_1 in Hnone.
    + intros Hn x Hx. apply bool_decide_eq_false_2. intros <-.
      apply Hn. by apply list_elem_of_fmap_2.
Qed.

(** ** The order of the calls *)

Lemma untracked_after_other (a b : BaseObject) (l l' : list BaseObject) :
  (∀ o, o ∈ l' ↔ o = b ∨ o ∈ l) → addr a ≠ addr b →
  ¬ tracked a l → ¬ tracked a l'.
Proof.
  intros Hmem Hne Hn (o & Ha & [->|Ho]%Hmem)%list_elem_of_fmap; [done|].
  apply Hn. unfold tracked, identities. rewrite Ha. by apply list_elem_of_fmap_2.
Qed.

(** X5.  The set does not depend on the order in which objects were
    registered: adding two live untracked objects of different identities
    in one order or the other gives the same set, entry for entry, and so
    the same order of iteration. *)
Theorem addObject_order_irrelevant (f1 f2 f3 f4 : nat) (a b : BaseObject) (w : world) :
  set_wf (liveObjects w) →
  ¬ tracked a (liveObjects w) → ¬ tracked b (liveObjects w) →
  addr a ≠ addr b →
  live w a → live w b →
  ∃ wab wba,
    addObject (S f1) a w ≫= addObject (S f2) b = Returns wab ∧
    addObject (S f3) b w ≫= addObject (S f4) a = Returns wba ∧
    liveObjects wab = liveObjects wba.
Proof.
  intros Hwf Ha Hb Hne Hla Hlb.
  assert (Hadd : ∀ f obj w0, set_wf (liveObjects w0) → ¬ tracked obj (liveObjects w0) →
    live w0 obj →
    ∃ w', addObject (S f) obj w0 = Returns w' ∧ set_wf (liveObjects w') ∧
          freed w' = freed w0 ∧
          (∀ o, o ∈ liveObjects w' ↔ o = obj ∨ o ∈ liveObjects w0)).
  { intros f obj w0 Hwf0 Hn0 Hl0.
    destruct (addObject_inserted f obj w0 Hn0) as (w' & Hrun & Hl & _ & Hf); [done|].
    exists w'. rewrite Hl. split_and!; [done|by apply emplace_wf|done|].
    intros o. by apply emplace_elem_of. }
  destruct (Hadd f1 a w Hwf Ha Hla) as (wa & Hra & Hwfa & Hfa & Hma).
  destruct (Hadd f3 b w Hwf Hb Hlb) as (wb & Hrb & Hwfb & Hfb & Hmb).
  destruct (Hadd f2 b wa Hwfa) as (wab & Hrab & Hwfab & _ & Hmab).
  { eapply untracked_after_other; eauto. }
  { unfold live. by rewrite Hfa. }
  destruct (Hadd f4 a wb Hwfb) as (wba & Hrba & Hwfba & _ & Hmba).
  { eapply untracked_after_other; eauto. }
  { unfold live. by rewrite Hfb. }
  exists wab, wba. rewrite Hra, Hrb. simpl. split_and!; [done..|].
  apply set_wf_ext; [done..|].
  intros o. rewrite Hmab, Hmba, Hma, Hmb. tauto.
Qed.

(** X12.  [addObject] of a live untracked object and [removeObject] of
    another live object, whose entry has a destructor that makes no tracker
    call, can be swapped: both orders return and give the same set. *)
Theorem addObject_removeObject_commute (f1 f2 f3 f4 : nat) (a b : BaseObject) (w : world) :
  set_wf (liveObjects w) →
  ¬ tracked a (liveObjects w) →
  addr a ≠ addr b →
  (∀ p, addr p = addr b → dtor p = []) →
  live w a → live w b →
  ∃ w1 w2,
    addObject (S f1) a w ≫= removeObject (S f2) b = Returns w1 ∧
    removeObject (S f3) b w ≫= addObject (S f4) a = Returns w2 ∧
    liveObjects w1 = liveObjects w2.
Proof.
  intros Hwf Ha Hne Hplain Hla Hlb.
  destruct (addObject_inserted f1 a w Ha) as (wa & Hra & Hla' & _ & Hfa); [done|].
  assert (Hwfa : set_wf (liveObjects wa)) by (rewrite Hla'; by apply emplace_wf).
  destruct (removeObject_exact f2 b wa Hwfa) as (w1 & Hr1 & Hwf1 & Hm1 & _);
    [unfold live; by rewrite Hfa|by auto|].
  destruct (removeObject_exact f3 b w Hwf Hlb) as (wb & Hrb & Hwfb & Hmb & Hfb);
    [by auto|].
  assert (Ha' : ¬ tracked a (liveObjects wb)).
  { intros (o & Ho & [Hin _]%Hmb)%list_elem_of_fmap. apply Ha.
    unfold tracked, identities. rewrite Ho. by apply list_elem_of_fmap_2. }
  destruct (addObject_inserted f4 a wb Ha') as (w2 & Hr2 & Hl2 & _).
  { intros _. destruct Hla as [? Hla]. split; [done|].
    intros [Heq|?]%Hfb; [congruence|done]. }
  exists w1, w2. rewrite Hra, Hrb. simpl. split_and!; [done..|].
  apply set_wf_ext; [done|rewrite Hl2; by apply emplace_wf|].
  intros o. rewrite Hm1, Hl2, Hla', !emplace_elem_of, Hmb by done.
  split.
  - intros [[->|Ho] Hna]; [by left|by right].
  - intros [->|[Ho Hna]]; [|by split; [right|]]. split; [by left|done].
Qed.

(** ** More on the sweep *)

(** X8.  The sweep deletes from the back: in a well-formed set that is not
    empty, the entry an iteration erases is the one with the greatest
    address; its destructor then runs on the set of the other entries. *)
Theorem sweep_erases_greatest_address (fuel : nat) (w : world) :
  set_wf (liveObjects w) → liveObjects w ≠ [] →
  ∃ l o, liveObjects w = l ++ [o] ∧
         (∀ x, x ∈ l → (addr x < addr o)%N) ∧
         sweep (S fuel) w =
           delete_object fuel o (set_liveObjects l (touch (touch w))) ≫= sweep fuel.
Proof.
  intros Hwf Hne.
  destruct (last (liveObjects w)) as [o|] eqn:Hlast.
  - apply last_Some in Hlast as [l Hl]. exists l, o. split_and!; [done| |].
    + intros x Hx. rewrite Hl in Hwf. by eapply set_wf_last.
    + simpl. by rewrite Hl, last_snoc, removelast_last.
  - by apply last_None in Hlast.
Qed.

(** X9.  Whatever the destructors do, the destructor of the tracker returns
    only with nothing tracked, and with the lock as it found it. *)
Theorem destructor_returns_only_when_empty (fuel : nat) (w w' : world) :
  ObjectTracker_destructor fuel w = Returns w' →
  liveObjects w' = [] ∧ trackerMutex w' = trackerMutex w.
Proof.
  unfold ObjectTracker_destructor. intros Hrun. split.
  - revert Hrun. generalize (report_leaks w). clear w.
    induction fuel as [|f IH]; intros w; simpl; [done|].
    destruct (last (liveObjects w)) as [o|] eqn:Hlast.
    + intros (w2 & _ & ?)%bind_Returns. by eapply IH.
    + intros [= <-]. simpl. by apply last_None.
  - apply sweep_touches in Hrun as [-> _]. by rewrite report_leaks_eq.
Qed.

(** X14.  Why the mutex is recursive: when [removeObject] erases an entry
    whose destructor calls back into the tracker, the call re-entered from
    the destructor takes the mutex while the outer call still holds it; the
    set is then touched with the mutex held at least twice more often than
    on entry. *)
Theorem reentrant_call_holds_mutex_again (fuel it : nat) (obj p : BaseObject)
    (c : call) (cs : list call) (w w' : world) :
  find_if obj (liveObjects w) = Some (it, p) →
  addr p ≠ nullptr →
  dtor p = c :: cs →
  removeObject fuel obj w = Returns w' →
  ∃ t1 h t2, touched w' = touched w ++ t1 ++ h :: t2 ∧
             trackerMutex w + 2 ≤ h ∧
             trackerMutex w' = trackerMutex w.
Proof.
  intros Hfind Hnull Hdtor Hrun.
  pose proof Hrun as [[Hm _] _]%exec_guarded.
  destruct fuel as [|f]; [done|].
  rewrite exec_remove in Hrun.
  apply removeObject_body_Returns in Hrun as [_ Hrun]. rewrite Hfind in Hrun.
  destruct Hrun as (w3 & Hdel & ->).
  destruct (after_unlink_fields DEBUG_MODE obj it w) as (_ & Hm1 & _).
  assert (Ht1 : ∃ t, touched (after_unlink obj it w) = touched w ++ t).
  { unfold after_unlink, after_find_if.
    destruct DEBUG_MODE; simpl; rewrite <- !app_assoc; eauto. }
  destruct Ht1 as [t1 Ht1].
  apply delete_with_Returns in Hdel as [[? _]|(_ & _ & w2 & Hrun & _ & ->)]; [done|].
  rewrite Hdtor in Hrun. simpl in Hrun.
  apply bind_Returns in Hrun as (wa & E2 & E3).
  apply exec_guarded in E2 as [[_ ((t2 & Ht2 & Hpos2) & _)] Hlen2].
  apply run_calls_framed in E3 as [_ ((t3 & Ht3 & _) & _)];
    [|intros c' wx wy Hc'; by apply exec_guarded in Hc' as [? _]].
  destruct t2 as [|h t2].
  { rewrite Ht2, app_nil_r in Hlen2. lia. }
  exists t1, h, (t2 ++ t3). simpl. split_and!.
  - rewrite Ht3, Ht2, Ht1, <- !app_assoc. done.
  - apply Forall_inv in Hpos2. lia.
  - done.
Qed.

(** ** The destructor of the tracker on plain objects *)

Lemma entries_live_snoc (l : list BaseObject) (o : BaseObject) (w w1 : world) :
  liveObjects w = l ++ [o] → sound w →
  liveObjects w1 = l → (∀ a, a ∈ freed w1 → a = addr o ∨ a ∈ freed w) →
  sound w1.
Proof.
  intros Hl [Hwf Hlive] Hl1 Hf1. rewrite Hl in Hwf. split.
  - rewrite Hl1. by eapply set_wf_snoc_init.
  - intros x Hx. rewrite Hl1 in Hx.
    destruct (Hlive x) as [Hnull Hfree]; [rewrite Hl; apply elem_of_app; by left|].
    split; [done|]. intros [Heq|?]%Hf1; [|done].
    pose proof (set_wf_last l o x Hwf Hx). lia.
Qed.

Lemma sweep_plain (fuel : nat) (w : world) :
  (∀ o, dtor o = []) → sound w → length (liveObjects w) < fuel →
  ∃ w', sweep fuel w = Returns w' ∧
        liveObjects w' = [] ∧
        cout w' = cout w ∧
        calls w' = calls w ∧
        (∀ a, a ∈ freed w' → a ∈ freed w ∨ a ∈ identities (liveObjects w)).
Proof.
  intros Hplain. revert w.
  induction fuel as [|f IH]; intros w Hsound Hfuel; [lia|]. simpl.
  destruct (last (liveObjects w)) as [o|] eqn:Hlast.
  - apply last_Some in Hlast as [l Hl].
    rewrite Hl, removelast_last.
    set (w1 := set_liveObjects l (touch (touch w))).
    destruct (delete_object_plain f o w1 (Hplain o))
      as (w2 & -> & Hl2 & _ & Hc2 & Hk2 & Hf2).
    { destruct Hsound as [_ Hlive]. apply Hlive. rewrite Hl.
      apply elem_of_app. right. by left. }
    simpl.
    destruct (IH w2) as (w' & Hrun & Hempty & Hc & Hk & Hf).
    + by apply (entries_live_snoc l o w).
    + rewrite Hl2. simpl. rewrite Hl, length_app in Hfuel. simpl in Hfuel. lia.
    + exists w'. split_and!; [done..|by rewrite Hc, Hc2|by rewrite Hk, Hk2|].
      intros a [[->|Ha]%Hf2|Ha]%Hf.
      * right. unfold identities. rewrite fmap_app.
        apply elem_of_app. right. by left.
      * by left.
      * right. rewrite Hl2 in Ha. simpl in Ha.
        unfold identities. rewrite fmap_app. apply elem_of_app. by left.
  - apply last_None in Hlast. eexists. split; [done|]. simpl.
    split_and!; [done..|]. auto.
Qed.

Lemma sound_report_leaks (w : world) : sound w → sound (report_leaks w).
Proof. rewrite report_leaks_eq. by intros [? ?]. Qed.

(** ** The leak report *)

(** C7, as amended.  The destructor reports leaks only when the debug log
    is enabled: then, for a set that is not empty, it writes one line per
    tracked object, in the order of the set, made of the reference count and
    the type name of that object, and closes with an empty line; with the
    debug log disabled, or with nothing tracked, it writes nothing.
    Reporting changes neither the set nor the lock.  When the set owns live
    objects whose destructors make no tracker call, the destructor then
    returns, with the set empty and the report as the only output. *)
Theorem leaks_reported_if_debug_log_enabled (w : world) :
  cout (report_leaks w) =
    cout w ++
      (if isDebugLogEnabled then
         match liveObjects w with
         | [] => []
         | _ :: _ => (leak_message <$> liveObjects w) ++ [endl]
         end
       else []) ∧
  liveObjects (report_leaks w) = liveObjects w ∧
  trackerMutex (report_leaks w) = trackerMutex w ∧
  ((∀ o, dtor o = []) → sound w →
   ∀ fuel, length (liveObjects w) < fuel →
     ∃ w', ObjectTracker_destructor fuel w = Returns w' ∧
           liveObjects w' = [] ∧
           cout w' = cout (report_leaks w)).
Proof.
  rewrite report_leaks_eq. simpl. split_and!; try done.
  intros Hplain Hsound fuel Hfuel. unfold ObjectTracker_destructor.
  destruct (sweep_plain fuel (report_leaks w) Hplain)
    as (w' & Hrun & Hempty & Hc & _).
  { by apply sound_report_leaks. }
  { by rewrite report_leaks_eq. }
  exists w'. split_and!; [done..|]. by rewrite Hc, report_leaks_eq.
Qed.

(** X13.  When the set owns live objects and no destructor calls back into
    the tracker, the destructor of the tracker returns for any fuel above
    the number of tracked objects, with nothing tracked; it has written the
    leak report and nothing else, and has made no [addObject] or
    [removeObject] call. *)
Theorem destructor_with_plain_objects (fuel : nat) (w : world) :
  (∀ o, dtor o = []) → sound w → length (liveObjects w) < fuel →
  ∃ w', ObjectTracker_destructor fuel w = Returns w' ∧
        liveObjects w' = [] ∧
        cout w' = cout w ++ leak_lines (liveObjects w) ∧
        calls w' = calls w ∧
        trackerMutex w' = trackerMutex w.
Proof.
  intros Hplain Hsound Hfuel. unfold ObjectTracker_destructor.
  destruct (sweep_plain fuel (report_leaks w) Hplain)
    as (w' & Hrun & Hempty & Hc & Hk & _).
  { by apply sound_report_leaks. }
  { by rewrite report_leaks_eq. }
  exists w'. split; [done|]. split; [done|]. rewrite Hc, Hk.
  apply sweep_touches in Hrun as [-> _].
  by rewrite report_leaks_eq.
Qed.

(** X10.  The sweep relies on destructors that do not register objects:
    when the destructor of the last entry registers its object again, the
    sweep deletes the object, finds the entry that was put back, and deletes
    the object a second time. *)
Theorem sweep_deletes_readded_object_twice (fuel : nat) (l : list BaseObject)
    (o : BaseObject) (w : world) :
  liveObjects w = l ++ [o] → set_wf (liveObjects w) → live w o →
  dtor o = [CallAdd o] →
  sweep (S (S fuel)) w = Undefined (DoubleDelete (addr o)).
Proof.
  intros Hl Hwf [Hnull Hlive] Hdtor. rewrite Hl in Hwf.
  set (w1 := set_liveObjects l (touch (touch w))).
  destruct (addObject_inserted fuel o w1) as (w2 & Hadd & Hl2 & _ & Hf2).
  { by apply set_wf_snoc_untracked. }
  { done. }
  rewrite emplace_greatest in Hl2 by (intros x Hx; by eapply set_wf_last).
  simpl in Hl2.
  assert (Hdel : delete_object (S fuel) o w1 = Returns (mark_freed (addr o) w2)).
  { unfold delete_object. apply delete_with_Returns. right.
    split_and!; [done..|]. exists w2. rewrite Hdtor. cbn [run_calls].
    change (exec (S fuel) (CallAdd o) w1 = Returns w2) in Hadd.
    rewrite Hadd. simpl. split_and!; [done| |done]. by rewrite Hf2. }
  change (sweep (S (S fuel)) w) with
    (match last (liveObjects (touch w)) with
     | None => Returns (touch w)
     | Some o0 =>
         delete_object (S fuel) o0
           (set_liveObjects (removelast (liveObjects (touch w))) (touch (touch w)))
         ≫= sweep (S fuel)
     end).
  simpl liveObjects. rewrite Hl, last_snoc, removelast_last.
  fold w1. rewrite Hdel. simpl. rewrite Hl2, last_snoc, removelast_last.
  unfold delete_object, delete_with. rewrite decide_False by done.
  rewrite decide_True; [done|]. simpl. by left.
Qed.

End Properties.

(** ** Builds without traces *)

Lemma identities_sublist (k l : list BaseObject) (a : ptr) :
  k `sublist_of` l → a ∈ identities k → a ∈ identities l.
Proof.
  intros Hkl (x & -> & Hx)%list_elem_of_fmap.
  apply list_elem_of_fmap_2. by eapply elem_of_sublist.
Qed.

Lemma shrinks_refl (w : world) : shrinks w w.
Proof. split; [done|]. auto. Qed.

Lemma shrinks_trans (w1 w2 w3 : world) :
  shrinks w1 w2 → shrinks w2 w3 → shrinks w1 w3.
Proof.
  intros [Hs12 Hf12] [Hs23 Hf23]. split; [by etrans|].
  intros a [Ha|Ha]%Hf23; [by apply Hf12|].
  right. by eapply identities_sublist.
Qed.

(** What is asked of a step, or of a destructor, to keep a sound state
    sound while the set shrinks, in silence. *)
Lemma run_calls_quiet (step : call → world → outcome world) (n : nat) :
  (∀ c w, is_remove c → sound w → length (liveObjects w) < n →
     ∃ w', step c w = Returns w' ∧ sound w' ∧ shrinks w w' ∧ cout w' = cout w) →
  ∀ cs w, Forall is_remove cs → sound w → length (liveObjects w) < n →
     ∃ w', run_calls step cs w = Returns w' ∧
           sound w' ∧ shrinks w w' ∧ cout w' = cout w.
Proof.
  intros Hstep cs. induction cs as [|c cs IH]; simpl; intros w Hcs Hsound Hn.
  - exists w. split_and!; [done..|apply shrinks_refl|done].
  - apply Forall_cons in Hcs as [Hc Hcs].
    destruct (Hstep c w Hc Hsound Hn) as (w1 & -> & Hsound1 & Hsh1 & Hc1). simpl.
    destruct (IH w1 Hcs Hsound1) as (w2 & -> & Hsound2 & Hsh2 & Hc2).
    { destruct Hsh1 as [Hsub _]. apply sublist_length in Hsub. lia. }
    exists w2. split_and!; [done..|by eapply shrinks_trans|congruence].
Qed.

Lemma delete_with_quiet (dtor : BaseObject → list call)
    (run : list call → world → outcome world) (n : nat) :
  only_removes dtor →
  (∀ cs w, Forall is_remove cs → sound w → length (liveObjects w) < n →
     ∃ w', run cs w = Returns w' ∧ sound w' ∧ shrinks w w' ∧ cout w' = cout w) →
  ∀ o w, sound w → addr o ∉ freed w → addr o ∉ identities (liveObjects w) →
     length (liveObjects w) < n →
     ∃ w', delete_with dtor run o w = Returns w' ∧
           sound w' ∧
           liveObjects w' `sublist_of` liveObjects w ∧
           (∀ a, a ∈ freed w' →
              a = addr o ∨ a ∈ freed w ∨ a ∈ identities (liveObjects w)) ∧
           cout w' = cout w.
Proof.
  intros Hdtor Hrun o w Hsound Hfree Hout Hn.
  destruct (decide (addr o = nullptr)) as [Hnull|Hnull].
  { exists w. split; [apply delete_with_Returns; by left|].
    split_and!; [done|done|auto|done]. }
  destruct (Hrun (dtor o) w (Hdtor o) Hsound Hn)
    as (w1 & Hrun1 & [Hwf1 Hlive1] & [Hsub Hf] & Hc).
  assert (Hfree1 : addr o ∉ freed w1) by (intros [?|?]%Hf; done).
  exists (mark_freed (addr o) w1). split.
  { apply delete_with_Returns. right. eauto 10. }
  split_and!; [split|..]; simpl; [done| |done| |done].
  - intros x Hx. destruct (Hlive1 x Hx) as [Hxnull Hxfree]. split; [done|].
    simpl. intros [Heq|?]%elem_of_cons; [|done].
    apply Hout. rewrite <- Heq. apply list_elem_of_fmap_2.
    by eapply elem_of_sublist.
  - intros a [->|Ha]%elem_of_cons; [by left|]. right. by apply Hf.
Qed.

Lemma removeObject_body_quiet (delete_ : BaseObject → world → outcome world)
    (n : nat) :
  (∀ o w, sound w → addr o ∉ freed w → addr o ∉ identities (liveObjects w) →
     length (liveObjects w) < n →
     ∃ w', delete_ o w = Returns w' ∧
           sound w' ∧
           liveObjects w' `sublist_of` liveObjects w ∧
           (∀ a, a ∈ freed w' →
              a = addr o ∨ a ∈ freed w ∨ a ∈ identities (liveObjects w)) ∧
           cout w' = cout w) →
  ∀ obj w, sound w → length (liveObjects w) < S n →
     ∃ w', removeObject_body false false delete_ obj w = Returns w' ∧
           sound w' ∧ shrinks w w' ∧ cout w' = cout w ∧
           ¬ tracked obj (liveObjects w') ∧
           (tracked obj (liveObjects w) →
            length (liveObjects w') < length (liveObjects w)).
Proof.
  intros Hdel obj w [Hwf Hlive] Hn.
  destruct (find_if obj (liveObjects w)) as [[it p]|] eqn:Hfind.
  - pose proof (find_if_Some _ _ _ _ Hfind) as (Hit & Hp & Hin).
    destruct (after_unlink_fields false obj it w) as (Hl & _ & _ & Hf).
    assert (Hgone : ∀ x, x ∈ delete it (liveObjects w) → addr x ≠ addr obj).
    { intros x Hx. by apply (erase_elem_of obj p x it) in Hx as [_ ?]. }
    assert (Hlen : length (delete it (liveObjects w)) < length (liveObjects w)).
    { rewrite length_delete by eauto. apply lookup_lt_Some in Hit. lia. }
    destruct (Hdel p (after_unlink false obj it w))
      as (w3 & Hrun & [Hwf3 Hlive3] & Hsub3 & Hf3 & Hc3).
    + split.
      * rewrite Hl. eapply set_wf_sublist; [apply sublist_delete|done].
      * intros x Hx. rewrite Hl in Hx. unfold live. rewrite Hf. apply Hlive.
        eapply elem_of_sublist; [done|apply sublist_delete].
    + rewrite Hf. by apply Hlive.
    + rewrite Hl. intros (x & Heq & Hx)%list_elem_of_fmap.
      apply (Hgone x Hx). congruence.
    + rewrite Hl. lia.
    + rewrite Hl in Hsub3. exists (unlock w3). split.
      { apply removeObject_body_Returns. rewrite Hfind. split; [done|]. eauto. }
      split_and!; [by split|split|..]; simpl.
      * etrans; [exact Hsub3|]. apply sublist_delete.
      * intros a [->|[Ha|Ha]]%Hf3.
        -- right. by apply list_elem_of_fmap_2.
        -- left. by rewrite <- Hf.
        -- right. rewrite Hl in Ha.
           eapply identities_sublist; [apply sublist_delete|done].
      * by rewrite Hc3.
      * intros (x & Heq & Hx)%list_elem_of_fmap.
        apply (Hgone x); [by eapply elem_of_sublist|congruence].
      * intros _. apply sublist_length in Hsub3. lia.
  - eexists. split.
    { apply removeObject_body_Returns. rewrite Hfind. by split_and!. }
    split_and!; [by split|split; simpl; [done|auto]|done| |].
    + by apply find_if_None.
    + intros Ht. by apply find_if_None in Hfind.
Qed.

Section Quiet.
Context (dtor : BaseObject → list call).
Hypothesis dtor_only_removes : only_removes dtor.

Local Abbreviation exec := (exec false false dtor).
Local Abbreviation removeObject := (removeObject false false dtor).
Local Abbreviation delete_object := (delete_object false false dtor).
Local Abbreviation sweep := (sweep false false dtor).

Lemma exec_quiet (fuel : nat) (c : call) (w : world) :
  is_remove c → sound w → length (liveObjects w) < fuel →
  ∃ w', exec fuel c w = Returns w' ∧
        sound w' ∧ shrinks w w' ∧ cout w' = cout w.
Proof.
  revert c w. induction fuel as [|f IH]; intros c w Hc Hsound Hn; [lia|].
  destruct c as [obj|obj]; [done|].
  destruct (removeObject_body_quiet (delete_object f) f) with (obj := obj) (w := w)
    as (w' & Hrun & ? & ? & ? & _); [|done..|by exists w'].
  apply delete_with_quiet; [done|]. apply run_calls_quiet. auto.
Qed.

Lemma delete_object_quiet (fuel : nat) (o : BaseObject) (w : world) :
  sound w → addr o ∉ freed w → addr o ∉ identities (liveObjects w) →
  length (liveObjects w) < fuel →
  ∃ w', delete_object fuel o w = Returns w' ∧
        sound w' ∧
        liveObjects w' `sublist_of` liveObjects w ∧
        cout w' = cout w.
Proof.
  intros Hsound Hfree Hout Hn.
  destruct (delete_with_quiet dtor (run_calls (exec fuel)) fuel) with (o := o) (w := w)
    as (w' & ? & ? & ? & _ & ?); [done| |done..|by exists w'].
  apply run_calls_quiet. intros c w1. apply exec_quiet.
Qed.

Lemma removeObject_quiet (fuel : nat) (obj : BaseObject) (w : world) :
  sound w → length (liveObjects w) < fuel →
  ∃ w', removeObject fuel obj w = Returns w' ∧
        sound w' ∧ shrinks w w' ∧ cout w' = cout w ∧
        ¬ tracked obj (liveObjects w') ∧
        (tracked obj (liveObjects w) →
         length (liveObjects w') < length (liveObjects w)).
Proof.
  intros Hsound Hn. destruct fuel as [|f]; [lia|].
  apply (removeObject_body_quiet (delete_object f) f); [|done..].
  apply delete_with_quiet; [done|]. apply run_calls_quiet.
  intros c w1. apply exec_quiet.
Qed.

Lemma sweep_quiet (fuel : nat) (w : world) :
  sound w → length (liveObjects w) < fuel →
  ∃ w', sweep fuel w = Returns w' ∧ liveObjects w' = [] ∧ cout w' = cout w.
Proof.
  revert w. induction fuel as [|f IH]; intros w Hsound Hn; [lia|]. simpl.
  destruct (last (liveObjects w)) as [o|] eqn:Hlast.
  - apply last_Some in Hlast as [l Hl]. rewrite Hl, removelast_last.
    set (w1 := set_liveObjects l (touch (touch w))).
    assert (Hsound1 : sound w1) by (apply (entries_live_snoc l o w); auto).
    destruct Hsound as [Hwf Hlive]. rewrite Hl in Hwf.
    destruct (delete_object_quiet f o w1 Hsound1)
      as (w2 & -> & Hsound2 & Hsub2 & Hc2).
    + apply Hlive. rewrite Hl. apply elem_of_app. right. by left.
    + by apply set_wf_snoc_untracked.
    + simpl. rewrite Hl, length_app in Hn. simpl in Hn. lia.
    + simpl. destruct (IH w2 Hsound2) as (w' & Hrun & Hempty & Hc).
      * apply sublist_length in Hsub2. simpl in Hsub2.
        rewrite Hl, length_app in Hn. simpl in Hn. lia.
      * exists w'. split_and!; [done..|]. by rewrite Hc, Hc2.
  - apply last_None in Hlast. eexists. split; [done|]. done.
Qed.

(** X2.  In a build without traces and with the debug log off, on a set
    that owns live objects, with destructors that only remove and fuel
    above the number of tracked objects: [removeObject] returns, for any
    pointer, tracked or not, live or not, and the identity is not tracked
    afterwards: no entry has it and [findTrackedObject] does not find it.
    What is left is a part of the set of before, in the same order, still
    well formed and owning live objects, and strictly smaller when the
    identity was tracked; nothing is written and the lock is given back. *)
Theorem removeObject_untracks (fuel : nat) (obj : BaseObject) (w : world) :
  sound w → length (liveObjects w) < fuel →
  ∃ w', removeObject fuel obj w = Returns w' ∧
        ¬ tracked obj (liveObjects w') ∧
        (findTrackedObject (has_identity (addr obj)) w').2 = None ∧
        liveObjects w' `sublist_of` liveObjects w ∧
        sound w' ∧
        (tracked obj (liveObjects w) →
         length (liveObjects w') < length (liveObjects w)) ∧
        cout w' = cout w ∧
        trackerMutex w' = trackerMutex w.
Proof.
  intros Hsound Hfuel.
  destruct (removeObject_quiet fuel obj w Hsound Hfuel)
    as (w' & Hrun & Hsound' & [Hsub _] & Hc & Hgone & Hlen).
  exists w'. split_and!; [done..| |done|done|done|done|].
  - simpl. apply scan_None. intros x Hx. apply bool_decide_eq_false_2.
    intros Heq. apply Hgone. unfold tracked, identities. rewrite <- Heq.
    by apply list_elem_of_fmap_2.
  - by apply exec_guarded in Hrun as [[? _] _].
Qed.

(** X11.  Removing twice, in a build without traces and with the debug log
    off: on a set that owns live objects, with destructors that only
    remove, the second [removeObject] of an identity returns as well,
    though the pointer now dangles, and leaves the set and the storage as
    the first one left them. *)
Theorem removeObject_twice (fuel : nat) (obj : BaseObject) (w : world) :
  sound w → length (liveObjects w) < fuel →
  ∃ w1 w2, removeObject fuel obj w = Returns w1 ∧
           removeObject fuel obj w1 = Returns w2 ∧
           liveObjects w2 = liveObjects w1 ∧
           freed w2 = freed w1 ∧
           trackerMutex w2 = trackerMutex w.
Proof.
  intros Hsound Hfuel.
  destruct (removeObject_quiet fuel obj w Hsound Hfuel)
    as (w1 & Hrun1 & _ & _ & _ & Hgone & _).
  pose proof Hrun1 as [[Hm1 _] _]%exec_guarded.
  destruct fuel as [|f]; [lia|].
  destruct (removeObject_not_found false false dtor f obj w1)
    as (w2 & Hrun2 & Hl2 & Hm2 & Hf2 & _).
  { by apply find_if_None. }
  { by intros [|]. }
  exists w1, w2. split_and!; [done..|]. congruence.
Qed.

(** X7.  No release hangs or fails in a build without traces and with the
    debug log off: on a set that owns live objects, with destructors that
    only remove, every sequence of [removeObject] calls returns, each call
    with fuel above the number of tracked objects; entries only leave the
    set, which goes on owning live objects; nothing is written and the lock
    is given back. *)
Theorem releases_return (fuel : nat) (cs : list call) (w : world) :
  Forall is_remove cs → sound w → length (liveObjects w) < fuel →
  ∃ w', run_calls (exec fuel) cs w = Returns w' ∧
        sound w' ∧
        liveObjects w' `sublist_of` liveObjects w ∧
        cout w' = cout w ∧
        trackerMutex w' = trackerMutex w.
Proof.
  intros Hcs Hsound Hfuel.
  destruct (run_calls_quiet (exec fuel) fuel) with (cs := cs) (w := w)
    as (w' & Hrun & Hsound' & [Hsub _] & Hc); [|done..|].
  { intros c w1. apply exec_quiet. }
  exists w'. split_and!; [done..|].
  apply run_calls_framed in Hrun as [? _]; [done|].
  intros c w1 w2 Hc'. by apply exec_guarded in Hc' as [? _].
Qed.

(** X15.  The sweep in a build without traces and with the debug log off:
    on a set that owns live objects, with destructors that only remove, the
    destructor of the tracker returns, for any fuel above the number of
    tracked objects, with the set empty; it writes nothing and leaves the
    lock as it was. *)
Theorem destructor_without_traces_empties (fuel : nat) (w : world) :
  sound w → length (liveObjects w) < fuel →
  ∃ w', ObjectTracker_destructor false false dtor fuel w = Returns w' ∧
        liveObjects w' = [] ∧
        cout w' = cout w ∧
        trackerMutex w' = trackerMutex w.
Proof.
  intros Hsound Hfuel. unfold ObjectTracker_destructor.
  change (report_leaks false w) with w.
  destruct (sweep_quiet fuel w) as (w' & Hrun & Hempty & Hc); [done..|].
  exists w'. split_and!; [done..|].
  by apply sweep_touches in Hrun as [? _].
Qed.

End Quiet.

(** ** Concrete runs *)

Section Runs.
Import Scenario.

Lemma plain_only_removes : only_removes plain.
Proof. intros o. constructor. Defined.

Lemma A_releases_B_only_removes : only_removes A_releases_B.
Proof.
  intros o. unfold A_releases_B.
  destruct (decide (addr o = addr A)); repeat constructor.
Defined.

Lemma live_with_objects (l : list BaseObject) (o : BaseObject) :
  addr o ≠ nullptr → live (with_objects l) o.
Proof. intros Hnull. split; [done|]. simpl. apply not_elem_of_nil. Defined.

Lemma sound_with_objects (l : list BaseObject) :
  set_wf l → nullptr ∉ identities l → sound (with_objects l).
Proof.
  intros Hwf Hnull. split; [done|]. intros o Ho. apply live_with_objects.
  intros Heq. apply Hnull. rewrite <- Heq. by apply list_elem_of_fmap_2.
Defined.

Lemma A_is_an_object : addr A ≠ nullptr.
Proof. discriminate. Defined.

Lemma B_is_an_object : addr B ≠ nullptr.
Proof. discriminate. Defined.

Lemma A_is_not_B : addr A ≠ addr B.
Proof. discriminate. Defined.

Lemma nothing_tracked_initially : ¬ tracked A [].
Proof. by apply (bool_decide_unpack _). Defined.

Lemma B_not_tracked_alone : ¬ tracked A [B].
Proof. by apply (bool_decide_unpack _). Defined.

Lemma A_not_tracked_in_C : ¬ tracked A [C].
Proof. by apply (bool_decide_unpack _). Defined.

Lemma B_not_tracked_in_C : ¬ tracked B [C].
Proof. by apply (bool_decide_unpack _). Defined.

Lemma A_not_tracked_in_B_C : ¬ tracked A [B; C].
Proof. by apply (bool_decide_unpack _). Defined.

Lemma A_tracked_with_B : tracked A [A; B].
Proof. by apply (bool_decide_unpack _). Defined.

Lemma A_alone_well_formed : set_wf [A].
Proof. repeat constructor. Defined.

Lemma B_alone_well_formed : set_wf [B].
Proof. repeat constructor. Defined.

Lemma C_alone_well_formed : set_wf [C].
Proof. repeat constructor. Defined.

Lemma A_B_well_formed : set_wf [A; B].
Proof. repeat constructor. Defined.

Lemma B_C_well_formed : set_wf [B; C].
Proof. repeat constructor. Defined.

Lemma A_B_C_well_formed : set_wf [A; B; C].
Proof. repeat constructor. Defined.

Lemma A_B_sound : sound (with_objects [A; B]).
Proof.
  apply sound_with_objects; [exact A_B_well_formed|].
  by apply (bool_decide_unpack _).
Defined.

Lemma A_B_C_sound : sound (with_objects [A; B; C]).
Proof.
  apply sound_with_objects; [exact A_B_C_well_formed|].
  by apply (bool_decide_unpack _).
Defined.

(** C1.  Three live objects are tracked and destroying [A] releases [B], so
    destructors only remove.  The sweep erases [C], then [B], then [A]; the
    destructor of [A] calls [removeObject] with the pointer to [B], which
    the sweep has deleted.  In a debug build the trace of line 58, and with
    the debug log enabled the trace of line 65, reads the type name through
    that pointer: the destructor of the tracker does not end with the set
    empty, it has undefined behaviour.  Only with both traces off does the
    sweep end, with nothing tracked. *)
Theorem destructor_reads_object_the_sweep_deleted :
  only_removes A_releases_B ∧
  sound (with_objects [A; B; C]) ∧
  ObjectTracker_destructor true false A_releases_B 4 (with_objects [A; B; C])
    = Undefined (UseAfterFree (addr B)) ∧
  ObjectTracker_destructor false true A_releases_B 4 (with_objects [A; B; C])
    = Undefined (UseAfterFree (addr B)) ∧
  ObjectTracker_destructor false false A_releases_B 4 (with_objects [A; B; C])
    = Returns (mkWorld [] 0 [] [0; 0; 0; 0; 0; 0; 1; 1; 0] [CallRemove B]
                       [addr A; addr B; addr C]).
Proof.
  split; [exact A_releases_B_only_removes|]. split; [exact A_B_C_sound|].
  split_and!; reflexivity.
Qed.

(** The same with two objects and the debug log enabled: the leak report is
    written, then the sweep reads the deleted [B]. *)
Example destructor_reports_then_reads_deleted_object :
  ObjectTracker_destructor false true A_releases_B 3 (with_objects [A; B])
    = Undefined (UseAfterFree (addr B)).
Proof. reflexivity. Qed.

(** C2, at concrete inputs: [A] was never added and is live, the call
    returns with the two trace lines as only effect; [A] was added and
    removed, so the pointer dangles, and with the debug log enabled the
    second [removeObject] reads the deleted object. *)
Lemma removeObject_untracked_noop_or_reads_freed_witness :
  (¬ tracked A (liveObjects (with_objects [B])) ∧
   live (with_objects [B]) A ∧
   ∃ w', removeObject true true plain 1 A (with_objects [B]) = Returns w' ∧
         liveObjects w' = [B] ∧
         trackerMutex w' = 0 ∧
         freed w' = [] ∧
         cout w' = [] ++ [releasing_message A] ++ [not_tracked_message A]) ∧
  (run_calls (exec false true plain 1) [CallAdd A; CallRemove A] liveObjectsTracker
     = Returns (mkWorld [] 0 [] [1; 1; 1; 1] [CallAdd A; CallRemove A] [addr A]) ∧
   ¬ tracked A [] ∧
   dangling (mkWorld [] 0 [] [1; 1; 1; 1] [CallAdd A; CallRemove A] [addr A]) A ∧
   removeObject false true plain 1 A
     (mkWorld [] 0 [] [1; 1; 1; 1] [CallAdd A; CallRemove A] [addr A])
     = Undefined (UseAfterFree (addr A))).
Proof.
  split.
  - split; [exact B_not_tracked_alone|].
    split; [exact (live_with_objects [B] A A_is_an_object)|].
    destruct (removeObject_untracked_noop_or_reads_freed true true plain 0 A
                (with_objects [B]) B_not_tracked_alone) as (Hlive & _ & _ & _).
    exact (Hlive (live_with_objects [B] A A_is_an_object)).
  - split; [reflexivity|]. split; [exact nothing_tracked_initially|].
    assert (Hd : dangling
              (mkWorld [] 0 [] [1; 1; 1; 1] [CallAdd A; CallRemove A] [addr A]) A).
    { split; [exact A_is_an_object|]. by left. }
    split; [exact Hd|].
    destruct (removeObject_untracked_noop_or_reads_freed false true plain 0 A
                (mkWorld [] 0 [] [1; 1; 1; 1] [CallAdd A; CallRemove A] [addr A])
                nothing_tracked_initially) as (_ & Hbad & _ & _).
    exact (Hbad Hd eq_refl).
Defined.

(** The double remove as a run of calls from the initial tracker. *)
Example second_removeObject_reads_deleted_object :
  run_calls (exec false true plain 1) [CallAdd A; CallRemove A; CallRemove A]
            liveObjectsTracker = Undefined (UseAfterFree (addr A)) ∧
  run_calls (exec true false plain 1) [CallAdd A; CallRemove A; CallRemove A]
            liveObjectsTracker = Undefined (UseAfterFree (addr A)) ∧
  run_calls (exec false false plain 1) [CallAdd A; CallRemove A; CallRemove A]
            liveObjectsTracker
    = Returns (mkWorld [] 0 [] [1; 1; 1; 1; 1; 1]
                       [CallAdd A; CallRemove A; CallRemove A] [addr A]).
Proof. split_and!; reflexivity. Qed.

(** C3, at a concrete input. *)
Lemma tracker_holds_each_identity_once_witness :
  run_calls (exec false false plain 1) [CallAdd B; CallAdd A; CallRemove B]
            liveObjectsTracker
    = Returns (mkWorld [A] 0 [] [1; 1; 1; 1; 1]
                       [CallAdd B; CallAdd A; CallRemove B] [addr B]) ∧
  NoDup (identities [A]).
Proof.
  split; [reflexivity|].
  apply (tracker_holds_each_identity_once false false plain 1
           [CallAdd B; CallAdd A; CallRemove B]
           (mkWorld [A] 0 [] [1; 1; 1; 1; 1]
                    [CallAdd B; CallAdd A; CallRemove B] [addr B])).
  reflexivity.
Defined.

(** C4 fails when destroying the object releases another one: with [B]
    tracked, adding and removing [A] leaves nothing, and
    [findTrackedObject] tells the difference. *)
Lemma add_then_remove_loses_released_child :
  ¬ tracked A (liveObjects (with_objects [B])) ∧
  ∃ w1 w2,
    addObject false false A_releases_B 2 A (with_objects [B]) = Returns w1 ∧
    removeObject false false A_releases_B 2 A w1 = Returns w2 ∧
    (findTrackedObject (λ _, true) (with_objects [B])).2 = Some B ∧
    (findTrackedObject (λ _, true) w2).2 = None ∧
    liveObjects w2 ≠ liveObjects (with_objects [B]).
Proof.
  split; [exact B_not_tracked_alone|].
  exists (mkWorld [A; B] 0 [] [1] [CallAdd A] []).
  exists (mkWorld [] 0 [] [1; 1; 1; 1; 2; 2; 2]
                  [CallAdd A; CallRemove A; CallRemove B] [addr A; addr B]).
  split_and!; [vm_compute; reflexivity..|]. simpl. discriminate.
Qed.

(** C4 as amended, at a concrete input. *)
Lemma add_then_remove_restores_set_witness :
  ¬ tracked A (liveObjects (with_objects [B])) ∧
  plain A = [] ∧
  live (with_objects [B]) A ∧
  ∃ w1 w2,
    addObject false false plain 1 A (with_objects [B]) = Returns w1 ∧
    removeObject false false plain 1 A w1 = Returns w2 ∧
    liveObjects w2 = [B].
Proof.
  split; [exact B_not_tracked_alone|]. split; [reflexivity|].
  split; [exact (live_with_objects [B] A A_is_an_object)|].
  destruct (add_then_remove_restores_set false false plain 0 0 A
              (with_objects [B]) B_not_tracked_alone eq_refl
              (live_with_objects [B] A A_is_an_object))
    as (w1 & w2 & H1 & H2 & H3 & _).
  by exists w1, w2.
Defined.

(** C7 fails with the debug log disabled: [A] is tracked at shutdown and
    nothing at all is written. *)
Lemma destructor_silent_without_debug_log :
  A ∈ liveObjects (with_objects [A]) ∧
  ∃ w', ObjectTracker_destructor false false plain 2 (with_objects [A]) = Returns w' ∧
        cout w' = [] ∧
        leak_message A ∉ cout w'.
Proof.
  split; [by left|]. eexists. split_and!; [reflexivity..|].
  simpl. by intros ?%elem_of_nil.
Qed.

(** C7 as amended, at a concrete input. *)
Lemma leaks_reported_if_debug_log_enabled_witness :
  cout (report_leaks true (with_objects [A; B])) =
    [] ++ (leak_message <$> [A; B]) ++ [endl] ∧
  (∀ o, plain o = []) ∧
  sound (with_objects [A; B]) ∧
  ∃ w', ObjectTracker_destructor false true plain 3 (with_objects [A; B]) = Returns w' ∧
        liveObjects w' = [] ∧
        cout w' = cout (report_leaks true (with_objects [A; B])).
Proof.
  destruct (leaks_reported_if_debug_log_enabled false true plain
              (with_objects [A; B])) as (Hout & _ & _ & Hret).
  split; [exact Hout|]. split; [reflexivity|]. split; [exact A_B_sound|].
  apply (Hret (λ _, eq_refl) A_B_sound 3). simpl. lia.
Defined.

(** The two leak reports, as text. *)
Example two_leaks_reported :
  ObjectTracker_destructor false true plain 3 (with_objects [A; B]) =
  Returns
    (mkWorld [] 0
       ["[VC4CL] Leaked object with 1 references: cl_context" +:+ endl;
        "[VC4CL] Leaked object with 2 references: cl_command_queue" +:+ endl;
        endl]%string
       [0; 0; 0; 0; 0; 0; 0] [] [addr A; addr B]).
Proof. vm_compute. reflexivity. Qed.

(** C8 fails for the destructor: entered with the mutex free, it reads and
    erases with the mutex still free. *)
Lemma destructor_touches_set_unlocked :
  trackerMutex (with_objects [A]) = 0 ∧
  ∃ w', ObjectTracker_destructor false false plain 2 (with_objects [A]) = Returns w' ∧
        touched w' = [0; 0; 0] ∧
        ¬ guarded (with_objects [A]) w'.
Proof.
  split; [reflexivity|]. eexists. split_and!; [reflexivity..|].
  intros [[_ ((t & Ht & Hpos) & _)] _]. simpl in Ht. subst t.
  apply Forall_inv in Hpos. simpl in Hpos. lia.
Qed.

(** C8 as amended, at a concrete input. *)
Lemma operations_hold_the_lock_witness :
  removeObject false false A_releases_B 2 A (with_objects [A; B])
    = Returns (mkWorld [] 0 [] [1; 1; 1; 2; 2; 2] [CallRemove A; CallRemove B]
                       [addr A; addr B]) ∧
  guarded (with_objects [A; B])
          (mkWorld [] 0 [] [1; 1; 1; 2; 2; 2] [CallRemove A; CallRemove B]
                   [addr A; addr B]).
Proof.
  split; [reflexivity|].
  destruct (operations_hold_the_lock false false A_releases_B) as (_ & Hrem & _).
  apply (Hrem 2 A). reflexivity.
Defined.

(** C9, at a concrete input: [A] and [B] are tracked and live, and [A] is
    added again. *)
Lemma addObject_tracked_deletes_object_witness :
  set_wf (liveObjects (with_objects [A; B])) ∧
  tracked A (liveObjects (with_objects [A; B])) ∧
  live (with_objects [A; B]) A ∧
  plain A = [] ∧
  addObject true false plain 1 A (with_objects [A; B])
    = Undefined (UseAfterFree (addr A)) ∧
  ∃ w', addObject false false plain 1 A (with_objects [A; B]) = Returns w' ∧
        liveObjects w' = [A; B] ∧
        tracked A (liveObjects w') ∧
        dangling w' A ∧
        removeObject false false plain 1 A w' = Undefined (DoubleDelete (addr A)).
Proof.
  split; [exact A_B_well_formed|]. split; [exact A_tracked_with_B|].
  split; [exact (live_with_objects [A; B] A A_is_an_object)|].
  split; [reflexivity|]. split.
  - destruct (addObject_tracked_deletes_object true false plain 0 0 A
                (with_objects [A; B]) A_B_well_formed A_tracked_with_B
                (live_with_objects [A; B] A A_is_an_object) eq_refl)
      as [Hdebug _].
    exact (Hdebug eq_refl).
  - destruct (addObject_tracked_deletes_object false false plain 0 0 A
                (with_objects [A; B]) A_B_well_formed A_tracked_with_B
                (live_with_objects [A; B] A A_is_an_object) eq_refl)
      as [_ Hquiet].
    exact (Hquiet eq_refl).
Defined.

(** The duplicate registration as a run of calls from the initial tracker,
    in a build without traces: the second [addObject] deletes [A], and
    [removeObject] deletes it again. *)
Example duplicate_add_then_remove_deletes_twice :
  run_calls (exec false false plain 1) [CallAdd A; CallAdd A] liveObjectsTracker
    = Returns (mkWorld [A] 0 [] [1; 1] [CallAdd A; CallAdd A] [addr A]) ∧
  run_calls (exec false false plain 1) [CallAdd A; CallAdd A; CallRemove A]
            liveObjectsTracker = Undefined (DoubleDelete (addr A)) ∧
  run_calls (exec true false plain 1) [CallAdd A; CallAdd A] liveObjectsTracker
    = Undefined (UseAfterFree (addr A)).
Proof. split_and!; reflexivity. Qed.

(** The rejected object takes what its destructor releases with it: with
    [A] and [B] tracked and [A] releasing [B], adding [A] again leaves only
    the entry of the deleted [A]. *)
Example duplicate_add_releases_child :
  addObject false false A_releases_B 2 A (with_objects [A; B])
    = Returns (mkWorld [A] 0 [] [1; 2; 2; 2] [CallAdd A; CallRemove B]
                       [addr A; addr B]).
Proof. vm_compute. reflexivity. Qed.

(** Without API-call tracing [clTrackLiveObjectsAltera] returns the state
    it was given. *)
Example clTrackLiveObjectsAltera_without_tracing :
  clTrackLiveObjectsAltera no_trace 1%N (with_objects [A; B]) = with_objects [A; B].
Proof. reflexivity. Qed.

(** C6, at a concrete input: nothing matches in the empty set. *)
Lemma findTrackedObject_first_match_witness :
  liveObjects liveObjectsTracker = [] ∧
  (findTrackedObject (λ _, true) liveObjectsTracker).2 = None.
Proof.
  split; [reflexivity|].
  destruct (findTrackedObject_first_match (λ _, true) liveObjectsTracker)
    as (_ & _ & Hempty & _).
  apply Hempty. reflexivity.
Defined.

(** X1, at a concrete input. *)
Lemma addObject_untracked_tracks_witness :
  set_wf (liveObjects (with_objects [B])) ∧
  ¬ tracked A (liveObjects (with_objects [B])) ∧
  live (with_objects [B]) A ∧
  ∃ w', addObject true false plain 1 A (with_objects [B]) = Returns w' ∧
        (findTrackedObject (has_identity (addr A)) w').2 = Some A.
Proof.
  split; [exact B_alone_well_formed|]. split; [exact B_not_tracked_alone|].
  split; [exact (live_with_objects [B] A A_is_an_object)|].
  destruct (addObject_untracked_tracks true false plain 0 A (with_objects [B])
              B_alone_well_formed B_not_tracked_alone
              (live_with_objects [B] A A_is_an_object))
    as (w' & H1 & _ & _ & _ & _ & H2).
  by exists w'.
Defined.

(** X2, at a concrete input. *)
Lemma removeObject_untracks_witness :
  only_removes A_releases_B ∧
  sound (with_objects [A; B; C]) ∧
  length (liveObjects (with_objects [A; B; C])) < 4 ∧
  ∃ w', removeObject false false A_releases_B 4 A (with_objects [A; B; C]) = Returns w' ∧
        ¬ tracked A (liveObjects w').
Proof.
  split; [exact A_releases_B_only_removes|].
  split; [exact A_B_C_sound|]. split; [simpl; lia|].
  destruct (removeObject_untracks A_releases_B A_releases_B_only_removes 4 A
              (with_objects [A; B; C]) A_B_C_sound ltac:(simpl; lia))
    as (w' & H1 & H2 & _).
  by exists w'.
Defined.

(** X3, at a concrete input. *)
Lemma removeObject_removes_only_that_entry_witness :
  set_wf (liveObjects (with_objects [A; B])) ∧
  live (with_objects [A; B]) A ∧
  (∀ p, p ∈ liveObjects (with_objects [A; B]) → addr p = addr A → plain p = []) ∧
  ∃ w', removeObject true true plain 1 A (with_objects [A; B]) = Returns w' ∧
        liveObjects w' = filter (λ o, addr o ≠ addr A) [A; B].
Proof.
  split; [exact A_B_well_formed|].
  split; [exact (live_with_objects [A; B] A A_is_an_object)|].
  split; [reflexivity|].
  destruct (removeObject_removes_only_that_entry true true plain 0 A
              (with_objects [A; B]) A_B_well_formed
              (live_with_objects [A; B] A A_is_an_object) (λ _ _ _, eq_refl))
    as (w' & H1 & _ & H2 & _).
  by exists w'.
Defined.

(** X4, at a concrete input. *)
Lemma findTrackedObject_by_identity_witness :
  set_wf (liveObjects (with_objects [A; B])) ∧
  ((findTrackedObject (has_identity 200%N) (with_objects [A; B])).2 = Some B ↔
   B ∈ liveObjects (with_objects [A; B]) ∧ addr B = 200%N).
Proof.
  split; [exact A_B_well_formed|].
  apply (findTrackedObject_by_identity 200%N (with_objects [A; B]) A_B_well_formed).
Defined.

(** X5, at a concrete input. *)
Lemma addObject_order_irrelevant_witness :
  set_wf (liveObjects (with_objects [C])) ∧
  ¬ tracked A (liveObjects (with_objects [C])) ∧
  ¬ tracked B (liveObjects (with_objects [C])) ∧
  addr A ≠ addr B ∧
  live (with_objects [C]) A ∧
  live (with_objects [C]) B ∧
  ∃ wab wba,
    addObject true false plain 1 A (with_objects [C])
      ≫= addObject true false plain 1 B = Returns wab ∧
    addObject true false plain 1 B (with_objects [C])
      ≫= addObject true false plain 1 A = Returns wba ∧
    liveObjects wab = liveObjects wba.
Proof.
  split; [exact C_alone_well_formed|]. split; [exact A_not_tracked_in_C|].
  split; [exact B_not_tracked_in_C|]. split; [exact A_is_not_B|].
  split; [exact (live_with_objects [C] A A_is_an_object)|].
  split; [exact (live_with_objects [C] B B_is_an_object)|].
  apply (addObject_order_irrelevant true false plain 0 0 0 0 A B (with_objects [C])
           C_alone_well_formed A_not_tracked_in_C B_not_tracked_in_C A_is_not_B
           (live_with_objects [C] A A_is_an_object)
           (live_with_objects [C] B B_is_an_object)).
Defined.

(** X6, at a concrete input. *)
Lemma calls_keep_set_well_formed_witness :
  set_wf (liveObjects liveObjectsTracker) ∧
  run_calls (exec false false plain 1) [CallAdd B; CallAdd A; CallRemove B]
            liveObjectsTracker
    = Returns (mkWorld [A] 0 [] [1; 1; 1; 1; 1]
                       [CallAdd B; CallAdd A; CallRemove B] [addr B]) ∧
  set_wf [A] ∧ NoDup (identities [A]).
Proof.
  split; [exact set_wf_nil|]. split; [reflexivity|].
  apply (calls_keep_set_well_formed false false plain 1
           [CallAdd B; CallAdd A; CallRemove B] liveObjectsTracker
           (mkWorld [A] 0 [] [1; 1; 1; 1; 1] [CallAdd B; CallAdd A; CallRemove B]
                    [addr B])
           set_wf_nil eq_refl).
Defined.

(** X7, at a concrete input. *)
Lemma releases_return_witness :
  only_removes A_releases_B ∧
  Forall is_remove [CallRemove B; CallRemove A; CallRemove B] ∧
  sound (with_objects [A; B; C]) ∧
  length (liveObjects (with_objects [A; B; C])) < 4 ∧
  ∃ w', run_calls (exec false false A_releases_B 4)
                  [CallRemove B; CallRemove A; CallRemove B]
                  (with_objects [A; B; C]) = Returns w' ∧
        sound w' ∧
        liveObjects w' `sublist_of` [A; B; C].
Proof.
  split; [exact A_releases_B_only_removes|].
  split; [repeat constructor|].
  split; [exact A_B_C_sound|]. split; [simpl; lia|].
  destruct (releases_return A_releases_B A_releases_B_only_removes 4
              [CallRemove B; CallRemove A; CallRemove B] (with_objects [A; B; C])
              ltac:(repeat constructor) A_B_C_sound ltac:(simpl; lia))
    as (w' & H1 & H2 & H3 & _).
  by exists w'.
Defined.

(** X8, at a concrete input. *)
Lemma sweep_erases_greatest_address_witness :
  set_wf (liveObjects (with_objects [A; B; C])) ∧
  liveObjects (with_objects [A; B; C]) ≠ [] ∧
  ∃ l o, liveObjects (with_objects [A; B; C]) = l ++ [o] ∧
         (∀ x, x ∈ l → (addr x < addr o)%N) ∧
         sweep false false plain 4 (with_objects [A; B; C]) =
           delete_object false false plain 3 o
             (set_liveObjects l (touch (touch (with_objects [A; B; C]))))
           ≫= sweep false false plain 3.
Proof.
  split; [exact A_B_C_well_formed|]. split; [discriminate|].
  apply (sweep_erases_greatest_address false false plain 3 (with_objects [A; B; C])
           A_B_C_well_formed).
  discriminate.
Defined.

(** X9, at a concrete input. *)
Lemma destructor_returns_only_when_empty_witness :
  ObjectTracker_destructor false false A_releases_B 3 (with_objects [A; B])
    = Returns (mkWorld [] 0 [] [0; 0; 0; 0; 1; 1; 0] [CallRemove B]
                       [addr A; addr B]) ∧
  liveObjects (mkWorld [] 0 [] [0; 0; 0; 0; 1; 1; 0] [CallRemove B]
                       [addr A; addr B]) = [] ∧
  trackerMutex (mkWorld [] 0 [] [0; 0; 0; 0; 1; 1; 0] [CallRemove B]
                        [addr A; addr B])
    = trackerMutex (with_objects [A; B]).
Proof.
  split; [reflexivity|].
  apply (destructor_returns_only_when_empty false false A_releases_B 3
           (with_objects [A; B])
           (mkWorld [] 0 [] [0; 0; 0; 0; 1; 1; 0] [CallRemove B] [addr A; addr B])
           eq_refl).
Defined.

(** X10, at a concrete input. *)
Lemma sweep_deletes_readded_object_twice_witness :
  liveObjects (with_objects [A]) = [] ++ [A] ∧
  set_wf (liveObjects (with_objects [A])) ∧
  live (with_objects [A]) A ∧
  resurrect A = [CallAdd A] ∧
  sweep false false resurrect 2 (with_objects [A]) = Undefined (DoubleDelete (addr A)).
Proof.
  split; [reflexivity|]. split; [exact A_alone_well_formed|].
  split; [exact (live_with_objects [A] A A_is_an_object)|].
  split; [reflexivity|].
  apply (sweep_deletes_readded_object_twice false false resurrect 0 [] A
           (with_objects [A]) eq_refl A_alone_well_formed
           (live_with_objects [A] A A_is_an_object) eq_refl).
Defined.

(** X11, at a concrete input. *)
Lemma removeObject_twice_witness :
  only_removes A_releases_B ∧
  sound (with_objects [A; B; C]) ∧
  length (liveObjects (with_objects [A; B; C])) < 4 ∧
  ∃ w1 w2,
    removeObject false false A_releases_B 4 A (with_objects [A; B; C]) = Returns w1 ∧
    removeObject false false A_releases_B 4 A w1 = Returns w2 ∧
    liveObjects w2 = liveObjects w1.
Proof.
  split; [exact A_releases_B_only_removes|].
  split; [exact A_B_C_sound|]. split; [simpl; lia|].
  destruct (removeObject_twice A_releases_B A_releases_B_only_removes 4 A
              (with_objects [A; B; C]) A_B_C_sound ltac:(simpl; lia))
    as (w1 & w2 & H1 & H2 & H3 & _).
  by exists w1, w2.
Defined.

(** X12, at a concrete input. *)
Lemma addObject_removeObject_commute_witness :
  set_wf (liveObjects (with_objects [B; C])) ∧
  ¬ tracked A (liveObjects (with_objects [B; C])) ∧
  addr A ≠ addr B ∧
  (∀ p, addr p = addr B → plain p = []) ∧
  live (with_objects [B; C]) A ∧
  live (with_objects [B; C]) B ∧
  ∃ w1 w2,
    addObject true true plain 1 A (with_objects [B; C])
      ≫= removeObject true true plain 1 B = Returns w1 ∧
    removeObject true true plain 1 B (with_objects [B; C])
      ≫= addObject true true plain 1 A = Returns w2 ∧
    liveObjects w1 = liveObjects w2.
Proof.
  split; [exact B_C_well_formed|]. split; [exact A_not_tracked_in_B_C|].
  split; [exact A_is_not_B|]. split; [reflexivity|].
  split; [exact (live_with_objects [B; C] A A_is_an_object)|].
  split; [exact (live_with_objects [B; C] B B_is_an_object)|].
  apply (addObject_removeObject_commute true true plain 0 0 0 0 A B
           (with_objects [B; C]) B_C_well_formed A_not_tracked_in_B_C A_is_not_B
           (λ _ _, eq_refl)
           (live_with_objects [B; C] A A_is_an_object)
           (live_with_objects [B; C] B B_is_an_object)).
Defined.

(** X13, at a concrete input. *)
Lemma destructor_with_plain_objects_witness :
  (∀ o, plain o = []) ∧
  sound (with_objects [A; B]) ∧
  length (liveObjects (with_objects [A; B])) < 3 ∧
  ∃ w', ObjectTracker_destructor false true plain 3 (with_objects [A; B]) = Returns w' ∧
        liveObjects w' = [] ∧
        cout w' = [] ++ leak_lines true [A; B] ∧
        calls w' = [] ∧
        trackerMutex w' = 0.
Proof.
  split; [reflexivity|]. split; [exact A_B_sound|]. split; [simpl; lia|].
  apply (destructor_with_plain_objects false true plain 3 (with_objects [A; B])
           (λ _, eq_refl) A_B_sound).
  simpl. lia.
Defined.

(** X14, at a concrete input. *)
Lemma reentrant_call_holds_mutex_again_witness :
  find_if A (liveObjects (with_objects [A; B])) = Some (0, A) ∧
  addr A ≠ nullptr ∧
  A_releases_B A = [CallRemove B] ∧
  removeObject false false A_releases_B 2 A (with_objects [A; B])
    = Returns (mkWorld [] 0 [] [1; 1; 1; 2; 2; 2] [CallRemove A; CallRemove B]
                       [addr A; addr B]) ∧
  ∃ t1 h t2, [1; 1; 1; 2; 2; 2] = [] ++ t1 ++ h :: t2 ∧ 0 + 2 ≤ h ∧ 0 = 0.
Proof.
  split; [reflexivity|]. split; [exact A_is_an_object|].
  split; [reflexivity|]. split; [reflexivity|].
  apply (reentrant_call_holds_mutex_again false false A_releases_B 2 0 A A
           (CallRemove B) [] (with_objects [A; B])
           (mkWorld [] 0 [] [1; 1; 1; 2; 2; 2] [CallRemove A; CallRemove B]
                    [addr A; addr B])
           eq_refl A_is_an_object eq_refl eq_refl).
Defined.

(** X15, at a concrete input. *)
Lemma destructor_without_traces_empties_witness :
  only_removes A_releases_B ∧
  sound (with_objects [A; B; C]) ∧
  length (liveObjects (with_objects [A; B; C])) < 4 ∧
  ∃ w', ObjectTracker_destructor false false A_releases_B 4 (with_objects [A; B; C])
          = Returns w' ∧
        liveObjects w' = [] ∧
        cout w' = [] ∧
        trackerMutex w' = 0.
Proof.
  split; [exact A_releases_B_only_removes|].
  split; [exact A_B_C_sound|]. split; [simpl; lia|].
  apply (destructor_without_traces_empties A_releases_B A_releases_B_only_removes 4
           (with_objects [A; B; C]) A_B_C_sound).
  simpl. lia.
Defined.

End Runs.
